(** * A shallow embedding of the cimplex tet meshes and of [delaunay_tets]

    Vertex ids are [Z] (the source's [VertexId(IdType)]); edge, triangle and
    tetrahedron ids are tuples of vertex ids, canonicalised as in the
    source's [EdgeId], [TriId] and [TetId].  The four stores of a mesh are
    association lists (the source's [OrderedIdMap] and [FnvHashMap]s); the
    MWB variant ([MwbComboMesh3]) and the plain variant ([ComboMesh3]) are
    distinguished by a [kind] argument. *)

From Stdlib Require Import ZArith List Bool Lia QArith.
Import ListNotations.
Open Scope Z_scope.

Definition VertexId := Z.
Definition EdgeId := (Z * Z)%type.
Definition TriId := (Z * Z * Z)%type.
Definition TetId := (Z * Z * Z * Z)%type.

(** ** Keys with a boolean equality (the source's [Eq + Hash] keys) *)

Class KeyEq (K : Type) := {
  key_eqb : K -> K -> bool;
  key_eqb_spec : forall a b, key_eqb a b = true <-> a = b
}.

#[global] Instance KeyEq_Z : KeyEq Z := { key_eqb := Z.eqb; key_eqb_spec := Z.eqb_eq }.

#[global, refine] Instance KeyEq_prod {A B} `{KeyEq A} `{KeyEq B} : KeyEq (A * B) := {
  key_eqb x y := key_eqb (fst x) (fst y) && key_eqb (snd x) (snd y)
}.
Proof.
  intros [a1 b1] [a2 b2]; simpl; rewrite andb_true_iff, !key_eqb_spec; split.
  - intros [-> ->]; reflexivity.
  - intros Hp; inversion Hp; auto.
Defined.

Lemma key_eqb_refl {K} `{KeyEq K} (a : K) : key_eqb a a = true.
Proof. apply key_eqb_spec; reflexivity. Qed.

Lemma key_eqb_false {K} `{KeyEq K} (a b : K) : key_eqb a b = false <-> a <> b.
Proof.
  split.
  - intros Hf Heq; apply key_eqb_spec in Heq; congruence.
  - intros Hne; destruct (key_eqb a b) eqn:E; [apply key_eqb_spec in E; congruence | reflexivity].
Qed.

Lemma key_eqb_sym {K} `{KeyEq K} (a b : K) : key_eqb a b = key_eqb b a.
Proof.
  destruct (key_eqb a b) eqn:E1, (key_eqb b a) eqn:E2; auto.
  - apply key_eqb_spec in E1; subst; rewrite key_eqb_refl in E2; discriminate.
  - apply key_eqb_spec in E2; subst; rewrite key_eqb_refl in E1; discriminate.
Qed.

Definition key_mem {K} `{KeyEq K} (k : K) (l : list K) : bool := existsb (key_eqb k) l.

Lemma key_mem_In {K} `{KeyEq K} (k : K) l : key_mem k l = true <-> In k l.
Proof.
  unfold key_mem; rewrite existsb_exists; split.
  - intros [x [Hx Hk]]; apply key_eqb_spec in Hk; subst; auto.
  - intros Hk; exists k; split; auto; apply key_eqb_refl.
Qed.

Lemma key_mem_notIn {K} `{KeyEq K} (k : K) l : key_mem k l = false <-> ~ In k l.
Proof.
  rewrite <- key_mem_In; destruct (key_mem k l); split; congruence.
Qed.

(** ** Canonical simplex ids (modelled from the spec)

    Modelled from the spec: [TriId::from_valid] and [TetId::from_valid]
    (the files [tri.rs] and [tet.rs] are not part of the sources).  A
    triangle is stored as the rotation starting from its smallest id; a
    tetrahedron as the permutation starting from its smallest id, with the
    same parity as the given one, whose three last ids form a canonical
    triangle.  On the source's tests this gives e.g.
    [TetId::from_valid([1,0,2,3]) = [0,1,3,2]]. *)

Definition tri_from_valid (t : TriId) : TriId :=
  let '(a, b, c) := t in
  if (a <? b) && (a <? c) then (a, b, c)
  else if b <? c then (b, c, a)
  else (c, a, b).

Definition tet_from_valid (q : TetId) : TetId :=
  let '(a, b, c, d) := q in
  let '(x, r) :=
    if (a <? b) && (a <? c) && (a <? d) then (a, (b, c, d))
    else if (b <? c) && (b <? d) then (b, (a, d, c))
    else if c <? d then (c, (d, a, b))
    else (d, (c, b, a)) in
  let '(y, z, w) := tri_from_valid r in
  (x, y, z, w).

(** [TriId::twin]: the same triangle with the opposite orientation. *)
Definition tri_twin (t : TriId) : TriId :=
  let '(a, b, c) := t in tri_from_valid (a, c, b).

(** The three directed edges of a triangle. *)
Definition tri_edges (t : TriId) : list EdgeId :=
  let '(a, b, c) := t in [(a, b); (b, c); (c, a)].

(** [TetId::tris]: the four oriented faces of a tetrahedron [(a,b,c,d)];
    [(a,b,c)] is the face opposite [d], as in the source's tests. *)
Definition tet_tris (q : TetId) : list TriId :=
  let '(a, b, c, d) := q in
  [tri_from_valid (a, b, c); tri_from_valid (a, c, d);
   tri_from_valid (a, d, b); tri_from_valid (b, d, c)].

(** [TetId::contains_vertex]. *)
Definition tet_contains_vertex (q : TetId) (v : VertexId) : bool :=
  let '(a, b, c, d) := q in (a =? v) || (b =? v) || (c =? v) || (d =? v).

Definition tri_contains_vertex (t : TriId) (v : VertexId) : bool :=
  let '(a, b, c) := t in (a =? v) || (b =? v) || (c =? v).

(** [TetId::opp_tri]: the face of the tetrahedron opposite one of its
    vertices. *)
Definition tet_opp_tri (q : TetId) (v : VertexId) : TriId :=
  let '(a, b, c, d) := q in
  if a =? v then tri_from_valid (b, d, c)
  else if b =? v then tri_from_valid (a, c, d)
  else if c =? v then tri_from_valid (a, d, b)
  else tri_from_valid (a, b, c).

(** The vertex of a tetrahedron opposite one of its faces. *)
Definition tet_face_opp (q : TetId) (t : TriId) : VertexId :=
  let '(a, b, c, d) := q in
  if key_eqb t (tri_from_valid (b, d, c)) then a
  else if key_eqb t (tri_from_valid (a, c, d)) then b
  else if key_eqb t (tri_from_valid (a, d, b)) then c
  else d.

(** Two tetrahedra share an oriented face. *)
Definition shares_face (q r : TetId) : bool :=
  existsb (fun f => key_mem f (tet_tris r)) (tet_tris q).

Definition distinct3 (t : TriId) : Prop :=
  let '(a, b, c) := t in a <> b /\ a <> c /\ b <> c.

Definition distinct4 (q : TetId) : Prop :=
  let '(a, b, c, d) := q in
  a <> b /\ a <> c /\ a <> d /\ b <> c /\ b <> d /\ c <> d.

Definition tri_rots (t : TriId) : list TriId :=
  let '(a, b, c) := t in [(a, b, c); (b, c, a); (c, a, b)].

(** The twelve even permutations of a quadruple. *)
Definition tet_rots (q : TetId) : list TetId :=
  let '(a, b, c, d) := q in
  [(a, b, c, d); (a, c, d, b); (a, d, b, c);
   (b, a, d, c); (b, d, c, a); (b, c, a, d);
   (c, d, a, b); (c, a, b, d); (c, b, d, a);
   (d, c, b, a); (d, b, a, c); (d, a, c, b)].

Ltac zcases :=
  repeat match goal with
  | |- context [Z.ltb ?x ?y] => destruct (Z.ltb_spec x y); simpl; try (exfalso; lia)
  | |- context [Z.eqb ?x ?y] => destruct (Z.eqb_spec x y); simpl; try (exfalso; lia)
  end.

Lemma tri_from_valid_rots (t : TriId) : In (tri_from_valid t) (tri_rots t).
Proof. destruct t as [[a b] c]; simpl; zcases; simpl; auto. Qed.

Lemma tri_from_valid_rot_eq (t t' : TriId) :
  distinct3 t -> In t' (tri_rots t) -> tri_from_valid t' = tri_from_valid t.
Proof.
  destruct t as [[a b] c]; simpl; intros (H1 & H2 & H3) Hin.
  destruct Hin as [<- | [<- | [<- | []]]]; simpl; zcases; try reflexivity; exfalso; lia.
Qed.

Lemma tet_from_valid_rot_eq (q q' : TetId) :
  distinct4 q -> In q' (tet_rots q) -> tet_from_valid q' = tet_from_valid q.
Proof.
  destruct q as [[[a b] c] d]; simpl; intros (H1 & H2 & H3 & H4 & H5 & H6) Hin.
  repeat (destruct Hin as [<- | Hin]; [simpl; zcases; try reflexivity; exfalso; lia |]).
  destruct Hin.
Qed.

Lemma tet_from_valid_rots (q : TetId) : In (tet_from_valid q) (tet_rots q).
Proof.
  destruct q as [[[a b] c] d]; simpl.
  repeat match goal with
  | |- context [Z.ltb ?x ?y] => destruct (Z.ltb x y); simpl
  end; tauto.
Qed.

(** Showing that a canonical triangle occurs in a list of canonical
    triangles, up to rotation of its vertices. *)
Ltac canon_in :=
  repeat first
    [ left; apply tri_from_valid_rot_eq;
        [simpl; lia | cbn [tri_rots In]; solve [repeat first [left; reflexivity | right]]]
    | right ].

Lemma tet_tris_rot (q q' : TetId) (f : TriId) :
  distinct4 q -> In q' (tet_rots q) ->
  (In f (tet_tris q') <-> In f (tet_tris q)).
Proof.
  destruct q as [[[a b] c] d]; cbn [tet_rots In distinct4];
  intros (H1 & H2 & H3 & H4 & H5 & H6) Hin.
  repeat (destruct Hin as [<- | Hin];
    [cbn [tet_tris In]; split; intros [<- | [<- | [<- | [<- | []]]]]; canon_in |]).
  destruct Hin.
Qed.

Lemma tet_rots_distinct (q q' : TetId) :
  distinct4 q -> In q' (tet_rots q) -> distinct4 q'.
Proof.
  destruct q as [[[a b] c] d]; simpl; intros Hd Hin.
  repeat (destruct Hin as [<- | Hin]; [simpl; lia |]); destruct Hin.
Qed.


Lemma tet_from_valid_tris (q : TetId) (f : TriId) :
  distinct4 q -> (In f (tet_tris (tet_from_valid q)) <-> In f (tet_tris q)).
Proof. intros Hd; apply tet_tris_rot; auto using tet_from_valid_rots. Qed.

Lemma tet_from_valid_distinct (q : TetId) : distinct4 q -> distinct4 (tet_from_valid q).
Proof. intros Hd; eapply tet_rots_distinct; eauto using tet_from_valid_rots. Qed.



Lemma tri_from_valid_inj (t t' : TriId) :
  distinct3 t -> tri_from_valid t = tri_from_valid t' -> In t' (tri_rots t).
Proof.
  destruct t as [[a b] c], t' as [[a' b'] c']; simpl; intros (H1 & H2 & H3).
  zcases; intros Heq; inversion Heq; subst; tauto.
Qed.

(** The face lookup of [shares_face] only depends on the faces as a set. *)
Lemma shares_face_ext (q q' r r' : TetId) :
  (forall f, In f (tet_tris q) <-> In f (tet_tris q')) ->
  (forall f, In f (tet_tris r) <-> In f (tet_tris r')) ->
  shares_face q r = shares_face q' r'.
Proof.
  intros Hq Hr; unfold shares_face.
  apply eq_true_iff_eq; rewrite !existsb_exists; split;
    intros [f [Hf Hm]]; exists f; rewrite key_mem_In in *;
    firstorder.
Qed.

Lemma shares_face_sym (q r : TetId) : shares_face q r = shares_face r q.
Proof.
  unfold shares_face; apply eq_true_iff_eq; rewrite !existsb_exists; split;
    intros [f [Hf Hm]]; exists f; rewrite key_mem_In in *; auto.
Qed.

Lemma shares_face_refl (q : TetId) : shares_face q q = true.
Proof.
  destruct q as [[[a b] c] d]; unfold shares_face; apply existsb_exists.
  exists (tri_from_valid (a, b, c)); split; [left; reflexivity |].
  apply key_mem_In; left; reflexivity.
Qed.

(** ** Stores

    Modelled from the spec (section 4.1; the store code is generated by
    macros of files that are not part of the sources): a store maps a key
    to a payload; [insert] replaces the payload of a present key in place
    and returns the previous one, and appends an absent key; [remove]
    drops the key and returns its payload. *)

Section Store.
Context {K A : Type} `{KeyEq K}.

Fixpoint lookup (k : K) (l : list (K * A)) : option A :=
  match l with
  | [] => None
  | (k', a) :: l' => if key_eqb k k' then Some a else lookup k l'
  end.

Definition keys (l : list (K * A)) : list K := map fst l.

Definition store_insert (k : K) (a : A) (l : list (K * A)) : list (K * A) * option A :=
  match lookup k l with
  | Some old => (map (fun p => if key_eqb k (fst p) then (k, a) else p) l, Some old)
  | None => (l ++ [(k, a)], None)
  end.

Definition store_remove (k : K) (l : list (K * A)) : list (K * A) * option A :=
  (filter (fun p => negb (key_eqb k (fst p))) l, lookup k l).
End Store.

(** ** Meshes

    A [ComboMesh3] or [MwbComboMesh3]: the vertex, edge, triangle and
    tetrahedron stores, the id allocator and the default payloads of
    implicitly created simplices. *)

Inductive kind := Combo | Mwb.

Record mesh (V E F T : Type) := mk_mesh {
  vertices : list (VertexId * V);
  edges : list (EdgeId * E);
  tris : list (TriId * F);
  tets : list (TetId * T);
  next_vertex_id : Z;
  default_e : E;
  default_f : F;
  default_t : T
}.

Arguments mk_mesh {V E F T}.
Arguments vertices {V E F T}.
Arguments edges {V E F T}.
Arguments tris {V E F T}.
Arguments tets {V E F T}.
Arguments next_vertex_id {V E F T}.
Arguments default_e {V E F T}.
Arguments default_f {V E F T}.
Arguments default_t {V E F T}.

Section Mesh.
Context {V E F T : Type}.
Local Abbreviation mesh := (mesh V E F T).

Definition set_vertices (m : mesh) l : mesh :=
  mk_mesh l (edges m) (tris m) (tets m) (next_vertex_id m)
    (default_e m) (default_f m) (default_t m).
Definition set_edges (m : mesh) l : mesh :=
  mk_mesh (vertices m) l (tris m) (tets m) (next_vertex_id m)
    (default_e m) (default_f m) (default_t m).
Definition set_tris (m : mesh) l : mesh :=
  mk_mesh (vertices m) (edges m) l (tets m) (next_vertex_id m)
    (default_e m) (default_f m) (default_t m).
Definition set_tets (m : mesh) l : mesh :=
  mk_mesh (vertices m) (edges m) (tris m) l (next_vertex_id m)
    (default_e m) (default_f m) (default_t m).

(** *** Queries (rings as the spec's ring-coherence property describes
    them: the simplices of the store incident to a given one) *)

Definition vertex_ids (m : mesh) : list VertexId := keys (vertices m).
Definition num_vertices (m : mesh) : nat := length (vertices m).
Definition num_tets (m : mesh) : nat := length (tets m).
Definition edge_ids (m : mesh) : list EdgeId := keys (edges m).
Definition tri_ids (m : mesh) : list TriId := keys (tris m).
Definition tet_ids (m : mesh) : list TetId := keys (tets m).

Definition vertex_edges_out (m : mesh) (v : VertexId) : list EdgeId :=
  filter (fun e => fst e =? v) (edge_ids m).
Definition vertex_edges_in (m : mesh) (v : VertexId) : list EdgeId :=
  filter (fun e => snd e =? v) (edge_ids m).
Definition vertex_targets (m : mesh) (v : VertexId) : list VertexId :=
  map snd (vertex_edges_out m v).

Definition edge_tris (m : mesh) (e : EdgeId) : list TriId :=
  filter (fun t => key_mem e (tri_edges t)) (tri_ids m).

(** The vertex of a triangle opposite one of its directed edges. *)
Definition tri_edge_opp (t : TriId) (e : EdgeId) : VertexId :=
  let '(a, b, c) := t in
  if key_eqb e (a, b) then c else if key_eqb e (b, c) then a else b.

Definition edge_vertex_opps (m : mesh) (e : EdgeId) : list VertexId :=
  map (fun t => tri_edge_opp t e) (edge_tris m e).

Definition tri_tets (m : mesh) (t : TriId) : list TetId :=
  filter (fun q => key_mem t (tet_tris q)) (tet_ids m).

(** Modelled from the spec: the tet-opposite hint of a triangle, the
    vertex opposite it on some incident tetrahedron. *)
Definition tri_vertex_opp (m : mesh) (t : TriId) : option VertexId :=
  match tri_tets m t with
  | [] => None
  | q :: _ => Some (tet_face_opp q t)
  end.

Definition vertex_tets (m : mesh) (v : VertexId) : list TetId :=
  filter (fun q => tet_contains_vertex q v) (tet_ids m).

(** Modelled from the spec: the tetrahedra across the faces of a
    tetrahedron. *)
Definition adjacent_tets (m : mesh) (q : TetId) : list TetId :=
  flat_map (fun f => tri_tets m (tri_twin f)) (tet_tris q).

(** *** Insertion (modelled from the spec, section 4.2) *)

(** [add_with_position] / [add_vertex]: the id allocator hands out
    [next_vertex_id] and increments it. *)
Definition add_vertex (m : mesh) (x : V) : mesh * VertexId :=
  let id := next_vertex_id m in
  (mk_mesh (vertices m ++ [(id, x)]) (edges m) (tris m) (tets m) (id + 1)
     (default_e m) (default_f m) (default_t m), id).

(** An implicitly created edge gets the default payload. *)
Definition ensure_edge (m : mesh) (e : EdgeId) : mesh :=
  if key_mem e (edge_ids m) then m
  else set_edges m (edges m ++ [(e, default_e m)]).

Definition add_tri (m : mesh) (t : TriId) (x : F) : mesh * option F :=
  let t := tri_from_valid t in
  let m1 := fold_left ensure_edge (tri_edges t) m in
  let '(l, old) := store_insert t x (tris m1) in
  (set_tris m1 l, old).

(** An implicitly created triangle gets the default payload. *)
Definition ensure_tri (m : mesh) (t : TriId) : mesh :=
  if key_mem (tri_from_valid t) (tri_ids m) then m
  else fst (add_tri m t (default_f m)).

(** [remove_tet]: [remove_tet_higher] does nothing in both variants
    (mesh3.rs); the spec's [remove_tet] unsplices the tetrahedron from
    the rings of its faces, which stay.  (The sources' tests show the
    implementation also dropping faces left without tetrahedra; no
    tetrahedron-level statement below depends on it.) *)
Definition remove_tet_higher (k : kind) (m : mesh) (q : TetId) : mesh := m.

(** The removal of a stored key. *)
Definition remove_tet_key (k : kind) (m : mesh) (q : TetId) : mesh * option T :=
  let m1 := remove_tet_higher k m q in
  let '(l, old) := store_remove q (tets m1) in
  (set_tets m1 l, old).

Definition remove_tet (k : kind) (m : mesh) (q : TetId) : mesh * option T :=
  remove_tet_key k m (tet_from_valid q).

Definition remove_tets (k : kind) (m : mesh) (qs : list TetId) : mesh :=
  fold_left (fun m q => fst (remove_tet k m q)) qs m.

(** The tetrahedra, other than [q] itself, that share an oriented face
    with [q]. *)
Definition colliding (m : mesh) (q : TetId) : list TetId :=
  filter (fun r => negb (key_eqb r q) && shares_face r q) (tet_ids m).

Definition remove_colliding (k : kind) (m : mesh) (q : TetId) : mesh :=
  match k with
  | Combo => m
  | Mwb => fold_left (fun m r => fst (remove_tet_key k m r)) (colliding m q) m
  end.

(** [add_tet]: in the MWB variant a face that already belongs to another
    tetrahedron makes [add_tet] remove that (stored) tetrahedron first; the four
    faces are created if absent; then the tetrahedron is inserted or its
    payload replaced. *)
Definition add_tet (k : kind) (m : mesh) (q : TetId) (x : T) : mesh * option T :=
  let q := tet_from_valid q in
  let m1 := remove_colliding k m q in
  let m2 := fold_left ensure_tri (tet_tris q) m1 in
  let '(l, old) := store_insert q x (tets m2) in
  (set_tets m2 l, old).

Definition extend_tets (k : kind) (m : mesh) (l : list (TetId * T)) : mesh :=
  fold_left (fun m qx => fst (add_tet k m (fst qx) (snd qx))) l m.
End Mesh.

(** *** Removal

    The public removals ([remove_tri], [remove_edge], [remove_vertex]) are
    generated by macros of files that are not part of the sources; they
    are modelled from the spec (section 4.2): first the variant's
    [remove_*_higher] hook, translated from mesh3.rs, then the removal of
    the key itself.  The [_keep_*] removals the hooks call coincide with
    the plain ones in this model.  The fuel bounds the recursion of the MWB
    hooks; it is chosen large enough by the wrappers. *)

Section Removal.
Context {V E F T : Type}.
Local Abbreviation mesh := (mesh V E F T).

Fixpoint remove_tri_go (fuel : nat) (k : kind) (m : mesh) (t : TriId)
    : mesh * option F :=
  let t := tri_from_valid t in
  let m1 :=
    match fuel with
    | O => m
    | S fuel' =>
        match k with
        | Combo => remove_tets k m (tri_tets m t)
        | Mwb =>
            match tri_vertex_opp m t with
            | None => m
            | Some opp =>
                let '(t0, t1, t2) := t in
                let m' := fst (remove_tet k m (t0, t1, t2, opp)) in
                fold_left (fun m u => fst (remove_tri_go fuel' k m u))
                  [(opp, t2, t1); (t2, opp, t0); (t1, t0, opp)] m'
            end
        end
    end in
  let '(l, old) := store_remove t (tris m1) in
  (set_tris m1 l, old).

Definition remove_tri (k : kind) (m : mesh) (t : TriId) : mesh * option F :=
  remove_tri_go (S (length (tets m))) k m t.

Definition remove_tris (k : kind) (m : mesh) (ts : list TriId) : mesh :=
  fold_left (fun m t => fst (remove_tri k m t)) ts m.

Fixpoint remove_edge_go (fuel : nat) (k : kind) (m : mesh) (e : EdgeId)
    : mesh * option E :=
  let m1 :=
    match fuel with
    | O => m
    | S fuel' =>
        match k with
        | Combo => remove_tris k m (edge_tris m e)
        | Mwb =>
            let '(e0, e1) := e in
            match edge_vertex_opps m e with
            | [] => m
            | opp :: rest =>
                let m2 := remove_tris k m (map (fun v => (e0, e1, v)) rest) in
                let m3 := fst (remove_tri k m2 (e0, e1, opp)) in
                let m4 := match edge_vertex_opps m3 (e1, opp) with
                          | [] => fst (remove_edge_go fuel' k m3 (e1, opp))
                          | _ => m3
                          end in
                match edge_vertex_opps m4 (opp, e0) with
                | [] => fst (remove_edge_go fuel' k m4 (opp, e0))
                | _ => m4
                end
            end
        end
    end in
  let '(l, old) := store_remove e (edges m1) in
  (set_edges m1 l, old).

Definition remove_edge (k : kind) (m : mesh) (e : EdgeId) : mesh * option E :=
  remove_edge_go 2 k m e.

Definition remove_edges (k : kind) (m : mesh) (es : list EdgeId) : mesh :=
  fold_left (fun m e => fst (remove_edge k m e)) es m.

(** [remove_vertex_higher] (both variants): remove the outgoing and
    incoming edges. *)
Definition remove_vertex (k : kind) (m : mesh) (v : VertexId) : mesh * option V :=
  let m1 := remove_edges k m (vertex_edges_out m v ++ vertex_edges_in m v) in
  let '(l, old) := store_remove v (vertices m1) in
  (set_vertices m1 l, old).

(** The closure invariant of the spec (section 3): every edge's
    endpoints are vertices, every triangle's edges are edges, every
    tetrahedron's faces are triangles. *)
Definition closed (m : mesh) : bool :=
  forallb (fun e => key_mem (fst e) (vertex_ids m) && key_mem (snd e) (vertex_ids m))
    (edge_ids m) &&
  forallb (fun t => forallb (fun e => key_mem e (edge_ids m)) (tri_edges t)) (tri_ids m) &&
  forallb (fun q => forallb (fun f => key_mem f (tri_ids m)) (tet_tris q)) (tet_ids m).
End Removal.

(** ** Delaunay tetrahedralization (tetrahedralize.rs)

    The exact, perturbed predicates of the [simplicity] crate and the
    floating-point squared distances are parameters: the positions of the
    vertices of the mesh never change during [delaunay_tets], so each
    predicate is a function of vertex ids.  Distances live in an ordered
    type [R] with its strict comparison [R_ltb] (the source's [FloatOrd]). *)

Section Delaunay.
Context {V E F T : Type}.
Local Abbreviation mesh := (mesh V E F T).

Variable orient_3d : VertexId -> VertexId -> VertexId -> VertexId -> bool.
Variable in_sphere : VertexId -> VertexId -> VertexId -> VertexId -> VertexId -> bool.
Variable R : Type.
Variable R_ltb : R -> R -> bool.
Variable distance_squared : VertexId -> VertexId -> R.
(** The payload of the ghost vertex (a point at infinity). *)
Variable ghost_position : V.

Definition in_sphere_with_ghosts (tet : TetId) (m ghost : VertexId) : bool :=
  if tet_contains_vertex tet ghost then
    let '(a, b, c) := tet_opp_tri tet ghost in orient_3d a b c m
  else
    let '(a, b, c, d) := tet in in_sphere a b c d m.

(** [Iterator::min_by_key]: the first of the minimal elements. *)
Definition min_by_key {A} (key : A -> R) (l : list A) : option A :=
  match l with
  | [] => None
  | x :: r => Some (fold_left (fun best y => if R_ltb (key y) (key best) then y else best) r x)
  end.

(** The greedy walk of [find_tet_to_delete]; every step strictly
    decreases the distance, so it visits each vertex at most once and the
    fuel [num_vertices] suffices for a strict order. *)
Fixpoint walk (fuel : nat) (m : mesh) (p v : VertexId) : VertexId :=
  match fuel with
  | O => v
  | S fuel' =>
      match min_by_key (fun t => distance_squared t p)
              (filter (fun t => R_ltb (distance_squared t p) (distance_squared v p))
                 (vertex_targets m v)) with
      | None => v
      | Some closer => walk fuel' m p closer
      end
  end.

(** Modelled from the spec: [iter::bfs start neighbors filter] yields,
    in breadth-first order and each at most once, the items reached from
    [start] that pass [filter], expanding only those.  The fuel bounds
    the number of queue pops. *)
Fixpoint bfs_go (fuel : nat) (nbrs : TetId -> list TetId) (filt : TetId -> bool)
    (queue visited : list TetId) : list TetId :=
  match fuel, queue with
  | O, _ | _, [] => []
  | S fuel', x :: q =>
      if key_mem x visited then bfs_go fuel' nbrs filt q visited
      else if filt x then x :: bfs_go fuel' nbrs filt (q ++ nbrs x) (x :: visited)
      else bfs_go fuel' nbrs filt q (x :: visited)
  end.

Definition bfs (m : mesh) (filt : TetId -> bool) (start : list TetId) : list TetId :=
  let n := S (num_tets m) in
  bfs_go (length start + 4 * n * n) (adjacent_tets m) filt start [].

(** [None] is the panic of an [unwrap]. *)
Definition find_tet_to_delete (m : mesh) (new_vertex ghost : VertexId) : option TetId :=
  match tets m with
  | [] => None
  | ((v0, _, _, _), _) :: _ =>
      let vertex := walk (num_vertices m) m new_vertex v0 in
      find (fun q => in_sphere_with_ghosts q new_vertex ghost)
        (bfs m (fun _ => true) (vertex_tets m vertex))
  end.

Definition tets_to_delete (m : mesh) (new_vertex ghost : VertexId) : option (list TetId) :=
  match find_tet_to_delete m new_vertex ghost with
  | None => None
  | Some seed => Some (bfs m (fun q => in_sphere_with_ghosts q new_vertex ghost) [seed])
  end.

(** The faces of the cavity, as a set (the source's [FnvHashSet]; its
    iteration order is the hash order, here the order of first
    occurrence). *)
Fixpoint dedup {K} `{KeyEq K} (l : list K) : list K :=
  match l with
  | [] => []
  | x :: r => if key_mem x r then dedup r else x :: dedup r
  end.

Definition cavity_tris (to_delete : list TetId) : list TriId :=
  dedup (flat_map tet_tris to_delete).

Definition cavity_boundary (ts : list TriId) : list TriId :=
  filter (fun t => negb (key_mem (tri_twin t) ts)) ts.

(** [TetId::from_valid([tri.0[0], tri.0[1], tri.0[2], vertex])]. *)
Definition cone_key (vertex : VertexId) (t : TriId) : TetId :=
  let '(a, b, c) := t in tet_from_valid (a, b, c, vertex).

Definition new_tets (m : mesh) (vertex : VertexId) (boundary : list TriId)
    : list (TetId * T) :=
  map (fun t => (cone_key vertex t, default_t m)) boundary.

(** One insertion step after the cavity search: remove the cavity and
    cone its boundary to the new vertex. *)
Definition retetrahedralize (m : mesh) (vertex : VertexId) (to_delete : list TetId) : mesh :=
  let boundary := cavity_boundary (cavity_tris to_delete) in
  let m1 := remove_tets Mwb m to_delete in
  extend_tets Mwb m1 (new_tets m1 vertex boundary).

(** The ghost vertex, the first tetrahedron and its four ghost
    tetrahedra; [v_ids] is popped from its end. *)
Definition delaunay_init (m : mesh) : option (mesh * VertexId * list VertexId) :=
  let v_ids := vertex_ids m in
  let '(m1, ghost) := add_vertex m ghost_position in
  match rev v_ids with
  | v0 :: v1 :: v2 :: v3 :: rest =>
      let '(v2, v3) := if negb (orient_3d v0 v1 v2 v3) then (v3, v2) else (v2, v3) in
      let first := tet_from_valid (v0, v1, v2, v3) in
      let m2 := fst (add_tet Mwb m1 (v0, v1, v2, v3) (default_t m1)) in
      let m3 := fold_left
                  (fun m t => let '(a, b, c) := t in
                              fst (add_tet Mwb m (a, c, b, ghost) (default_t m)))
                  (tet_tris first) m2 in
      Some (m3, ghost, rest)
  | _ => None
  end.

Fixpoint delaunay_loop (m : mesh) (ghost : VertexId) (v_ids : list VertexId) : option mesh :=
  match v_ids with
  | [] => Some m
  | vertex :: v_ids' =>
      match tets_to_delete m vertex ghost with
      | None => None
      | Some to_delete => delaunay_loop (retetrahedralize m vertex to_delete) ghost v_ids'
      end
  end.

Definition delaunay_tets (m : mesh) : option mesh :=
  if (num_vertices m <? 4)%nat then Some m
  else
    match delaunay_init m with
    | None => None
    | Some (m3, ghost, rest) =>
        match delaunay_loop m3 ghost rest with
        | None => None
        | Some m4 => Some (fst (remove_vertex Mwb m4 ghost))
        end
    end.
End Delaunay.

(** ** The sources' MWB tests, replayed on the model

    Tetrahedron sets and returned payloads agree with the assertions of
    mesh3.rs (the triangle and edge counts there also reflect the pruning
    of orphaned faces done by the macros' public removals). *)

Definition empty_mesh {V E F T} (e : E) (f : F) (t : T) : mesh V E F T :=
  mk_mesh [] [] [] [] 0 e f t.

Definition extend_vertices {V E F T} (m : mesh V E F T) (xs : list V) : mesh V E F T :=
  fold_left (fun m x => fst (add_vertex m x)) xs m.

Definition test_mesh (xs : list nat) : mesh nat nat nat nat :=
  extend_vertices (empty_mesh 0%nat 0%nat 0%nat) xs.

Example test_add_tet_m_model :
  let '(m1, r1) := add_tet Mwb (test_mesh [3; 6; 9; 2]%nat) (1, 0, 2, 3) 1%nat in
  let '(m2, r2) := add_tet Mwb m1 (1, 0, 3, 2) 2%nat in
  let '(m3, r3) := add_tet Mwb m2 (3, 2, 1, 0) 3%nat in
  r1 = None /\ tets m1 = [((0, 1, 3, 2), 1%nat)] /\
  tri_ids m1 = [(0, 1, 3); (0, 3, 2); (0, 2, 1); (1, 2, 3)] /\
  r2 = None /\ tets m2 = [((0, 1, 3, 2), 1%nat); ((0, 1, 2, 3), 2%nat)] /\
  length (tris m2) = 8%nat /\
  r3 = Some 2%nat /\ tets m3 = [((0, 1, 3, 2), 1%nat); ((0, 1, 2, 3), 3%nat)].
Proof. vm_compute; repeat split. Qed.

Definition test_tets_5 : list (TetId * nat) :=
  [((1, 2, 3, 0), 2%nat); ((0, 2, 3, 4), 3%nat); ((2, 3, 4, 5), 4%nat);
   ((6, 5, 4, 3), 5%nat); ((6, 7, 4, 5), 6%nat)].

Example test_extend_tets_m_model :
  tets (extend_tets Mwb (test_mesh [3; 6; 9; 2; 5; 8; 1; 4; 7]%nat)
          (((0, 1, 2, 3), 1%nat) :: test_tets_5)) =
  [((0, 1, 3, 2), 2%nat); ((0, 2, 3, 4), 3%nat); ((2, 3, 4, 5), 4%nat);
   ((3, 4, 5, 6), 5%nat); ((4, 5, 6, 7), 6%nat)].
Proof. vm_compute; reflexivity. Qed.

Example test_remove_add_tet_m_model :
  let m := extend_tets Mwb (test_mesh [3; 6; 9; 2; 5; 8; 1; 4; 7]%nat) test_tets_5 in
  let '(m1, r1) := remove_tet Mwb m (0, 1, 3, 2) in
  let '(m2, r2) := add_tet Mwb m1 (7, 6, 4, 8) 7%nat in
  let '(m3, r3) := add_tet Mwb m2 (0, 1, 2, 3) 8%nat in
  r1 = Some 2%nat /\ r2 = None /\ r3 = None /\
  tets m3 = [((2, 3, 4, 5), 4%nat); ((3, 4, 5, 6), 5%nat); ((4, 5, 6, 7), 6%nat);
             ((4, 6, 8, 7), 7%nat); ((0, 1, 2, 3), 8%nat)].
Proof. vm_compute; repeat split. Qed.

Example test_remove_vertex_m_model :
  let m := extend_tets Mwb (test_mesh [3; 6; 9; 2; 5; 8; 1; 4; 7]%nat) test_tets_5 in
  let '(m1, r1) := remove_vertex Mwb m 1 in
  let '(m2, r2) := remove_vertex Mwb m1 3 in
  r1 = Some 6%nat /\ length (edges m1) = 30%nat /\ length (tris m1) = 16%nat /\
  tets m1 = [((0, 2, 3, 4), 3%nat); ((2, 3, 4, 5), 4%nat); ((3, 4, 5, 6), 5%nat);
             ((4, 5, 6, 7), 6%nat)] /\
  r2 = Some 2%nat /\ length (tris m2) = 4%nat /\ tets m2 = [((4, 5, 6, 7), 6%nat)].
Proof. vm_compute; repeat split. Qed.

(** The positions of the source's [test_in_sphere_ghost], scaled by 10,
    and the exact orientation predicate on them (positive when the fourth
    point lies below the plane of the first three, seen counterclockwise
    from above). *)
Definition test_position (v : VertexId) : Z * Z * Z :=
  match v with
  | 0 => (0, 0, 0) | 1 => (10, 0, 0) | 2 => (0, 10, 0) | 3 => (0, 0, 10)
  | _ => (5, 3, 6)
  end.

Definition test_orient_3d (a b c d : VertexId) : bool :=
  let '(ax, ay, az) := test_position a in
  let '(bx, by', bz) := test_position b in
  let '(cx, cy, cz) := test_position c in
  let '(dx, dy, dz) := test_position d in
  let '(ux, uy, uz) := (ax - dx, ay - dy, az - dz) in
  let '(vx, vy, vz) := (bx - dx, by' - dy, bz - dz) in
  let '(wx, wy, wz) := (cx - dx, cy - dy, cz - dz) in
  0 <? ux * (vy * wz - vz * wy) - uy * (vx * wz - vz * wx) + uz * (vx * wy - vy * wx).

(** [test_in_sphere_ghost]: the tetrahedron [from_valid([0,1,3,2])] with
    each of its vertices in turn taken as the ghost, against vertex 4. *)
Example test_in_sphere_ghost_model :
  map (fun g => in_sphere_with_ghosts test_orient_3d (fun _ _ _ _ _ => false)
                  (tet_from_valid (0, 1, 3, 2)) 4 g) [0; 1; 2; 3] =
  [false; true; true; true].
Proof. vm_compute; reflexivity. Qed.

(** ** Store facts *)

Section StoreFacts.
Context {K A : Type} `{KeyEq K}.

Definition count_key (k : K) (l : list (K * A)) : nat :=
  length (filter (fun p => key_eqb k (fst p)) l).

Lemma lookup_In (k : K) (l : list (K * A)) :
  lookup k l = None <-> ~ In k (keys l).
Proof.
  induction l as [| [k' a] l IH]; simpl; [tauto |].
  destruct (key_eqb k k') eqn:E.
  - apply key_eqb_spec in E; subst; split; [discriminate | tauto].
  - apply key_eqb_false in E; rewrite IH; intuition.
Qed.

Lemma lookup_some_In (k : K) (a : A) (l : list (K * A)) :
  lookup k l = Some a -> In k (keys l).
Proof.
  intros Hl; destruct (key_mem k (keys l)) eqn:Em; [apply key_mem_In; auto |].
  apply key_mem_notIn, lookup_In in Em; congruence.
Qed.

Lemma lookup_filter (f : K -> bool) (k : K) (l : list (K * A)) :
  lookup k (filter (fun p => f (fst p)) l) = if f k then lookup k l else None.
Proof.
  induction l as [| [k' a] l IH]; simpl; [destruct (f k); auto |].
  destruct (key_eqb k k') eqn:E.
  - apply key_eqb_spec in E; subst; destruct (f k'); simpl; rewrite ?key_eqb_refl; auto.
  - destruct (f k'); simpl; rewrite ?E; auto.
Qed.

Lemma lookup_remove (k k' : K) (l : list (K * A)) :
  lookup k (fst (store_remove k' l)) = if key_eqb k k' then None else lookup k l.
Proof.
  unfold store_remove; simpl.
  rewrite (lookup_filter (fun x => negb (key_eqb k' x))), key_eqb_sym.
  destruct (key_eqb k k'); reflexivity.
Qed.

Lemma lookup_map_replace (k k' : K) (a : A) (l : list (K * A)) :
  lookup k (map (fun p => if key_eqb k' (fst p) then (k', a) else p) l) =
  if key_eqb k k' then (match lookup k l with Some _ => Some a | None => None end)
  else lookup k l.
Proof.
  induction l as [| [k'' b] l IH]; simpl; [destruct (key_eqb k k'); auto |].
  destruct (key_eqb k' k'') eqn:E1; simpl.
  - apply key_eqb_spec in E1; subst.
    destruct (key_eqb k k'') eqn:E2; auto.
  - destruct (key_eqb k k'') eqn:E2; [| rewrite IH; auto].
    apply key_eqb_spec in E2; subst; rewrite key_eqb_sym, E1; auto.
Qed.

Lemma lookup_insert (k k' : K) (a : A) (l : list (K * A)) :
  lookup k (fst (store_insert k' a l)) = if key_eqb k k' then Some a else lookup k l.
Proof.
  unfold store_insert; destruct (lookup k' l) eqn:Hk; simpl.
  - rewrite lookup_map_replace; destruct (key_eqb k k') eqn:E; auto.
    apply key_eqb_spec in E; subst; rewrite Hk; auto.
  - induction l as [| [k'' b] l IH]; simpl in *.
    + destruct (key_eqb k k'); auto.
    + destruct (key_eqb k' k'') eqn:E1; [discriminate |].
      destruct (key_eqb k k'') eqn:E2; auto.
      apply key_eqb_spec in E2; subst; rewrite key_eqb_sym, E1; auto.
Qed.

Lemma store_insert_old (k : K) (a : A) (l : list (K * A)) :
  snd (store_insert k a l) = lookup k l.
Proof. unfold store_insert; destruct (lookup k l); reflexivity. Qed.

Lemma keys_remove (k r : K) (l : list (K * A)) :
  In r (keys (fst (store_remove k l))) <-> In r (keys l) /\ r <> k.
Proof.
  unfold keys, store_remove; simpl; rewrite !in_map_iff; split.
  - intros [[r' a] [Hr Hin]]; simpl in Hr; subst r; apply filter_In in Hin as [Hin Hn].
    split; [exists (r', a); auto |].
    intros ->; rewrite key_eqb_refl in Hn; discriminate.
  - intros [[[r' a] [Hr Hin]] Hne]; simpl in Hr; subst r; exists (r', a); split; auto.
    apply filter_In; split; auto; simpl.
    rewrite negb_true_iff, key_eqb_false; auto.
Qed.

Lemma keys_insert (k r : K) (a : A) (l : list (K * A)) :
  In r (keys (fst (store_insert k a l))) <-> In r (keys l) \/ r = k.
Proof.
  unfold store_insert; destruct (lookup k l) eqn:Hk; simpl.
  - unfold keys; rewrite map_map.
    replace (map (fun x => fst (if key_eqb k (fst x) then (k, a) else x)) l) with (map fst l).
    + split; [auto | intros [Hi | ->]; auto].
      apply lookup_some_In in Hk; exact Hk.
    + apply map_ext; intros [k' b]; simpl.
      destruct (key_eqb k k') eqn:E; auto; apply key_eqb_spec in E; auto.
  - unfold keys; rewrite map_app, in_app_iff; simpl; intuition.
Qed.

Lemma keys_insert_NoDup (k : K) (a : A) (l : list (K * A)) :
  NoDup (keys l) -> NoDup (keys (fst (store_insert k a l))).
Proof.
  unfold store_insert; destruct (lookup k l) eqn:Hk; simpl; intros Hn.
  - unfold keys; rewrite map_map.
    replace (map (fun x => fst (if key_eqb k (fst x) then (k, a) else x)) l) with (map fst l);
      auto.
    apply map_ext; intros [k' b]; simpl.
    destruct (key_eqb k k') eqn:E; auto; apply key_eqb_spec in E; auto.
  - unfold keys; rewrite map_app; simpl.
    apply NoDup_app; auto using NoDup_cons, NoDup_nil.
    + intros x Hx [<- | []]; apply lookup_In in Hk; auto.
Qed.

Lemma keys_remove_NoDup (k : K) (l : list (K * A)) :
  NoDup (keys l) -> NoDup (keys (fst (store_remove k l))).
Proof.
  unfold keys, store_remove; simpl; induction l as [| [k' b] l IH]; simpl; intros Hn;
    [constructor |].
  inversion Hn; subst; destruct (negb (key_eqb k k')); simpl; auto.
  constructor; auto; intros Hin; apply in_map_iff in Hin as [[x c] [Hx Hin]]; simpl in Hx; subst.
  apply filter_In in Hin as [Hin _]; apply (in_map fst) in Hin; auto.
Qed.

Lemma count_key_lookup (k : K) (l : list (K * A)) :
  lookup k l = None <-> count_key k l = 0%nat.
Proof.
  unfold count_key; induction l as [| [k' a] l IH]; simpl; [tauto |].
  destruct (key_eqb k k'); simpl; [split; discriminate | exact IH].
Qed.

Lemma count_key_remove (k k' : K) (l : list (K * A)) :
  count_key k (fst (store_remove k' l)) = if key_eqb k k' then 0%nat else count_key k l.
Proof.
  unfold count_key, store_remove; simpl.
  induction l as [| [x a] l IH]; simpl; [destruct (key_eqb k k'); auto |].
  destruct (key_eqb k' x) eqn:E1; simpl.
  - rewrite IH; destruct (key_eqb k x) eqn:E2; simpl; auto.
    apply key_eqb_spec in E1, E2; subst; rewrite key_eqb_refl; auto.
  - destruct (key_eqb k x) eqn:E2; simpl; rewrite IH; auto.
    destruct (key_eqb k k') eqn:E; auto.
    apply key_eqb_spec in E, E2; subst; rewrite key_eqb_refl in E1; discriminate.
Qed.

Lemma count_key_map_replace (k k' : K) (a : A) (l : list (K * A)) :
  count_key k (map (fun p => if key_eqb k' (fst p) then (k', a) else p) l) =
  count_key k l.
Proof.
  unfold count_key; induction l as [| [x b] l IH]; simpl; auto.
  destruct (key_eqb k' x) eqn:E1; simpl.
  - apply key_eqb_spec in E1; subst x.
    destruct (key_eqb k k'); simpl; rewrite IH; reflexivity.
  - destruct (key_eqb k x); simpl; rewrite IH; reflexivity.
Qed.

Lemma count_key_insert (k k' : K) (a : A) (l : list (K * A)) :
  count_key k (fst (store_insert k' a l)) =
  if key_eqb k k' then match lookup k l with None => 1%nat | Some _ => count_key k l end
  else count_key k l.
Proof.
  unfold store_insert; destruct (lookup k' l) eqn:Hk; simpl.
  - rewrite count_key_map_replace; destruct (key_eqb k k') eqn:E; auto.
    apply key_eqb_spec in E; subst; rewrite Hk; auto.
  - unfold count_key; rewrite filter_app, length_app; simpl.
    destruct (key_eqb k k') eqn:E; simpl.
    + apply key_eqb_spec in E; subst; rewrite Hk.
      apply count_key_lookup in Hk; unfold count_key in Hk; rewrite Hk; reflexivity.
    + rewrite Nat.add_0_r; reflexivity.
Qed.
End StoreFacts.

(** ** Frame facts: which operations touch the tetrahedron store *)

Section MeshFacts.
Context {V E F T : Type}.
Local Abbreviation mesh := (mesh V E F T).

Lemma ensure_edge_tets (m : mesh) e :
  tets (ensure_edge m e) = tets m /\ default_t (ensure_edge m e) = default_t m.
Proof. unfold ensure_edge; destruct (key_mem e (edge_ids m)); auto. Qed.

Lemma fold_ensure_edge_tets (m : mesh) es :
  tets (fold_left ensure_edge es m) = tets m /\
  default_t (fold_left ensure_edge es m) = default_t m.
Proof.
  revert m; induction es as [| e es IH]; intros m; simpl; auto.
  destruct (IH (ensure_edge m e)) as [-> ->]; apply ensure_edge_tets.
Qed.

Lemma add_tri_tets (m : mesh) t x :
  tets (fst (add_tri m t x)) = tets m /\ default_t (fst (add_tri m t x)) = default_t m.
Proof.
  unfold add_tri.
  destruct (store_insert _ x _) as [l old]; simpl.
  apply fold_ensure_edge_tets.
Qed.

Lemma ensure_tri_tets (m : mesh) t :
  tets (ensure_tri m t) = tets m /\ default_t (ensure_tri m t) = default_t m.
Proof.
  unfold ensure_tri; destruct (key_mem _ _); auto using add_tri_tets.
Qed.

Lemma fold_ensure_tri_tets (m : mesh) ts :
  tets (fold_left ensure_tri ts m) = tets m /\
  default_t (fold_left ensure_tri ts m) = default_t m.
Proof.
  revert m; induction ts as [| t ts IH]; intros m; simpl; auto.
  destruct (IH (ensure_tri m t)) as [-> ->]; apply ensure_tri_tets.
Qed.

Lemma remove_tet_key_tets k (m : mesh) q :
  tets (fst (remove_tet_key k m q)) = fst (store_remove q (tets m)) /\
  snd (remove_tet_key k m q) = lookup q (tets m) /\
  default_t (fst (remove_tet_key k m q)) = default_t m.
Proof. unfold remove_tet_key, remove_tet_higher; simpl; auto. Qed.

Lemma remove_keys_lookup k (m : mesh) rs r :
  lookup r (tets (fold_left (fun m r => fst (remove_tet_key k m r)) rs m)) =
  if key_mem r rs then None else lookup r (tets m).
Proof.
  revert m; induction rs as [| r' rs IH]; intros m; cbn [fold_left]; auto.
  change (key_mem r (r' :: rs)) with (key_eqb r r' || key_mem r rs).
  rewrite IH; destruct (remove_tet_key_tets k m r') as [-> _].
  rewrite lookup_remove; destruct (key_eqb r r'), (key_mem r rs); auto.
Qed.

Lemma remove_keys_keys k (m : mesh) rs r :
  In r (tet_ids (fold_left (fun m r => fst (remove_tet_key k m r)) rs m)) <->
  In r (tet_ids m) /\ ~ In r rs.
Proof.
  revert m; induction rs as [| r' rs IH]; intros m; cbn [fold_left In]; [tauto |].
  rewrite IH; unfold tet_ids; destruct (remove_tet_key_tets k m r') as [-> _].
  rewrite keys_remove; intuition.
Qed.

Lemma remove_keys_NoDup k (m : mesh) rs :
  NoDup (tet_ids m) ->
  NoDup (tet_ids (fold_left (fun m r => fst (remove_tet_key k m r)) rs m)).
Proof.
  revert m; induction rs as [| r' rs IH]; intros m Hn; cbn [fold_left]; auto.
  apply IH; unfold tet_ids; destruct (remove_tet_key_tets k m r') as [-> _].
  apply keys_remove_NoDup; auto.
Qed.

Lemma remove_keys_default k (m : mesh) rs :
  default_t (fold_left (fun m r => fst (remove_tet_key k m r)) rs m) = default_t m.
Proof.
  revert m; induction rs as [| r' rs IH]; intros m; cbn [fold_left]; auto.
  rewrite IH; apply remove_tet_key_tets.
Qed.

Lemma remove_colliding_lookup k (m : mesh) q r :
  lookup r (tets (remove_colliding k m q)) =
  match k with
  | Combo => lookup r (tets m)
  | Mwb => if key_mem r (colliding m q) then None else lookup r (tets m)
  end.
Proof. destruct k; [reflexivity | apply remove_keys_lookup]. Qed.

Lemma add_tet_tets k (m : mesh) q x :
  tets (fst (add_tet k m q x)) =
    fst (store_insert (tet_from_valid q) x (tets (remove_colliding k m (tet_from_valid q)))) /\
  snd (add_tet k m q x) = lookup (tet_from_valid q) (tets (remove_colliding k m (tet_from_valid q))) /\
  default_t (fst (add_tet k m q x)) = default_t m.
Proof.
  unfold add_tet.
  destruct (fold_ensure_tri_tets (remove_colliding k m (tet_from_valid q))
              (tet_tris (tet_from_valid q))) as [Ht Hd].
  destruct (store_insert _ x _) as [l old] eqn:Ei; simpl.
  rewrite Ht in Ei; rewrite Ei; simpl; repeat split.
  - change old with (snd (l, old)); rewrite <- Ei, store_insert_old; reflexivity.
  - rewrite Hd; unfold remove_colliding; destruct k; [reflexivity | apply remove_keys_default].
Qed.

Lemma remove_keys_count k (m : mesh) rs r :
  count_key r (tets (fold_left (fun m r => fst (remove_tet_key k m r)) rs m)) =
  if key_mem r rs then 0%nat else count_key r (tets m).
Proof.
  revert m; induction rs as [| r' rs IH]; intros m; cbn [fold_left]; auto.
  change (key_mem r (r' :: rs)) with (key_eqb r r' || key_mem r rs).
  rewrite IH; destruct (remove_tet_key_tets k m r') as [-> _].
  rewrite count_key_remove; destruct (key_eqb r r'), (key_mem r rs); auto.
Qed.

Lemma colliding_self (m : mesh) q : key_mem q (colliding m q) = false.
Proof.
  apply key_mem_notIn; unfold colliding; rewrite filter_In.
  rewrite key_eqb_refl; simpl; intuition discriminate.
Qed.

Lemma remove_colliding_self k (m : mesh) q :
  lookup q (tets (remove_colliding k m q)) = lookup q (tets m) /\
  count_key q (tets (remove_colliding k m q)) = count_key q (tets m).
Proof.
  destruct k; [split; reflexivity |]; unfold remove_colliding.
  rewrite remove_keys_lookup, remove_keys_count, colliding_self; auto.
Qed.

Lemma closed_spec (m : mesh) :
  closed m = true ->
  (forall e, In e (edge_ids m) -> In (fst e) (vertex_ids m) /\ In (snd e) (vertex_ids m)) /\
  (forall t e, In t (tri_ids m) -> In e (tri_edges t) -> In e (edge_ids m)) /\
  (forall q f, In q (tet_ids m) -> In f (tet_tris q) -> In f (tri_ids m)).
Proof.
  unfold closed; rewrite !andb_true_iff, !forallb_forall; intros [[He Ht] Hq].
  split; [| split].
  - intros e Hin; specialize (He e Hin); rewrite andb_true_iff, !key_mem_In in He; auto.
  - intros t e Hin He'; specialize (Ht t Hin); rewrite forallb_forall in Ht.
    apply key_mem_In, Ht; auto.
  - intros q f Hin Hf; specialize (Hq q Hin); rewrite forallb_forall in Hq.
    apply key_mem_In, Hq; auto.
Qed.



End MeshFacts.

(** ** MWB exclusivity *)

Fixpoint nodupb {K} `{KeyEq K} (l : list K) : bool :=
  match l with
  | [] => true
  | x :: r => negb (key_mem x r) && nodupb r
  end.

(** The MWB property of a tetrahedron store: keys are unique and no two
    tetrahedra share an oriented face. *)
Definition mwb_exclusive {V E F T} (m : mesh V E F T) : bool :=
  let ids := tet_ids m in
  nodupb ids &&
  forallb (fun r => forallb (fun s => key_eqb r s || negb (shares_face r s)) ids) ids.

Lemma nodupb_spec {K} `{KeyEq K} (l : list K) : nodupb l = true <-> NoDup l.
Proof.
  induction l as [| x l IH]; simpl; [split; auto using NoDup_nil |].
  rewrite andb_true_iff, negb_true_iff, key_mem_notIn, IH; split.
  - intros [Hn Hd]; constructor; auto.
  - intros Hd; inversion Hd; auto.
Qed.

Section Exclusivity.
Context {V E F T : Type}.
Local Abbreviation mesh := (mesh V E F T).

Definition excl_keys (ids : list TetId) : Prop :=
  NoDup ids /\
  forall r s, In r ids -> In s ids -> r <> s -> shares_face r s = false.

Lemma mwb_exclusive_spec (m : mesh) : mwb_exclusive m = true <-> excl_keys (tet_ids m).
Proof.
  unfold mwb_exclusive, excl_keys; rewrite andb_true_iff, nodupb_spec, forallb_forall.
  split; intros [Hd Hp]; split; auto.
  - intros r s Hr Hs Hne; specialize (Hp r Hr); rewrite forallb_forall in Hp.
    specialize (Hp s Hs); apply orb_true_iff in Hp as [Hp | Hp].
    + apply key_eqb_spec in Hp; contradiction.
    + apply negb_true_iff; exact Hp.
  - intros r Hr; apply forallb_forall; intros s Hs.
    destruct (key_eqb r s) eqn:Ers; simpl; auto.
    apply key_eqb_false in Ers; rewrite Hp; auto.
Qed.

Lemma colliding_In (m : mesh) q r :
  In r (colliding m q) <-> In r (tet_ids m) /\ r <> q /\ shares_face r q = true.
Proof.
  unfold colliding; rewrite filter_In, andb_true_iff, negb_true_iff, key_eqb_false.
  tauto.
Qed.

(** Adding a tetrahedron in the MWB variant: the new key carries the
    payload, every stored tetrahedron sharing a face with it is gone, and
    the MWB property is preserved. *)
Lemma add_tet_mwb (m : mesh) q x :
  let q' := tet_from_valid q in
  let m' := fst (add_tet Mwb m q x) in
  excl_keys (tet_ids m) ->
  lookup q' (tets m') = Some x /\
  (forall r, In r (tet_ids m') <-> (In r (tet_ids m) /\ ~ In r (colliding m q')) \/ r = q') /\
  excl_keys (tet_ids m').
Proof.
  intros q' m' [Hd Hp].
  destruct (add_tet_tets Mwb m q x) as (Ht & _ & _); fold q' m' in Ht.
  assert (Hk : forall r, In r (tet_ids m') <->
               (In r (tet_ids m) /\ ~ In r (colliding m q')) \/ r = q').
  { intros r; pose proof (remove_keys_keys Mwb m (colliding m q') r) as Hr.
    unfold tet_ids in *; rewrite Ht, keys_insert; unfold remove_colliding; rewrite Hr; tauto. }
  split; [| split; [exact Hk | split]].
  - rewrite Ht, lookup_insert, key_eqb_refl; reflexivity.
  - unfold tet_ids; rewrite Ht; apply keys_insert_NoDup.
    unfold remove_colliding; apply remove_keys_NoDup; auto.
  - intros r s Hr Hs Hne; apply Hk in Hr, Hs.
    destruct Hr as [[Hr Hr'] | ->], Hs as [[Hs Hs'] | ->]; auto.
    + destruct (shares_face r q') eqn:Hsf; auto.
      exfalso; apply Hr', colliding_In; auto.
    + rewrite shares_face_sym; destruct (shares_face s q') eqn:Hsf; auto.
      exfalso; apply Hs', colliding_In; auto.
    + contradiction.
Qed.

Lemma extend_tets_mwb (m : mesh) l :
  excl_keys (tet_ids m) -> excl_keys (tet_ids (extend_tets Mwb m l)).
Proof.
  revert m; induction l as [| [q x] l IH]; intros m Hm; simpl; auto.
  apply IH; apply (add_tet_mwb m q x Hm).
Qed.

Lemma excl_tri_tets (m : mesh) f :
  excl_keys (tet_ids m) -> (length (tri_tets m f) <= 1)%nat.
Proof.
  intros [Hd Hp]; unfold tri_tets.
  assert (Hin : forall r, In r (filter (fun q => key_mem f (tet_tris q)) (tet_ids m)) ->
                          In r (tet_ids m) /\ In f (tet_tris r)).
  { intros r; rewrite filter_In, key_mem_In; auto. }
  destruct (filter _ (tet_ids m)) as [| r [| s l]] eqn:Hf; simpl; auto.
  exfalso.
  assert (Hnd : NoDup (r :: s :: l)) by (rewrite <- Hf; apply NoDup_filter; auto).
  destruct (Hin r (or_introl eq_refl)) as [Hr Hfr].
  destruct (Hin s (or_intror (or_introl eq_refl))) as [Hs Hfs].
  assert (Hne : r <> s) by (intros Heq; subst s; inversion Hnd; simpl in *; tauto).
  specialize (Hp r s Hr Hs Hne).
  unfold shares_face in Hp; rewrite <- not_true_iff_false, existsb_exists in Hp.
  apply Hp; exists f; rewrite key_mem_In; auto.
Qed.
End Exclusivity.

Lemma tri_from_valid_contains (t : TriId) (v : VertexId) :
  tri_contains_vertex (tri_from_valid t) v = tri_contains_vertex t v.
Proof.
  pose proof (tri_from_valid_rots t) as Hr.
  destruct t as [[a b] c]; cbn [tri_rots In] in Hr.
  destruct Hr as [Hr | [Hr | [Hr | []]]]; rewrite <- Hr; simpl;
    destruct (a =? v), (b =? v), (c =? v); reflexivity.
Qed.

(** ** The insertion step of [delaunay_tets] *)



Section InsertionFacts.
Context {V E F T : Type}.
Local Abbreviation mesh := (mesh V E F T).

Lemma add_tet_keys k (m : mesh) q x r :
  In r (tet_ids (fst (add_tet k m q x))) <->
  In r (tet_ids (remove_colliding k m (tet_from_valid q))) \/ r = tet_from_valid q.
Proof.
  destruct (add_tet_tets k m q x) as (Ht & _ & _).
  unfold tet_ids at 1; rewrite Ht, keys_insert; reflexivity.
Qed.

Lemma remove_colliding_keys k (m : mesh) q r :
  In r (tet_ids (remove_colliding k m q)) -> In r (tet_ids m).
Proof.
  destruct k; simpl; auto.
  intros Hr; apply remove_keys_keys in Hr; tauto.
Qed.

Lemma add_tet_lookup k (m : mesh) q x r :
  lookup r (tets (fst (add_tet k m q x))) =
  if key_eqb r (tet_from_valid q) then Some x
  else lookup r (tets (remove_colliding k m (tet_from_valid q))).
Proof.
  destruct (add_tet_tets k m q x) as (Ht & _ & _); rewrite Ht, lookup_insert; reflexivity.
Qed.

Lemma remove_tets_facts k (m : mesh) qs :
  (forall r, In r (tet_ids (remove_tets k m qs)) <->
             In r (tet_ids m) /\ ~ In r (map tet_from_valid qs)) /\
  (forall r, lookup r (tets (remove_tets k m qs)) =
             if key_mem r (map tet_from_valid qs) then None else lookup r (tets m)) /\
  default_t (remove_tets k m qs) = default_t m.
Proof.
  unfold remove_tets; revert m; induction qs as [| q qs IH]; intros m;
    cbn [fold_left map]; [split; [tauto | split; reflexivity] |].
  destruct (IH (fst (remove_tet k m q))) as (IH1 & IH2 & IH3).
  unfold remove_tet in *; destruct (remove_tet_key_tets k m (tet_from_valid q)) as (Ht & _ & Hd).
  split; [| split].
  - intros r; rewrite IH1; unfold tet_ids; rewrite Ht, keys_remove; simpl; intuition.
  - intros r; rewrite IH2, Ht, lookup_remove.
    change (key_mem r (tet_from_valid q :: map tet_from_valid qs))
      with (key_eqb r (tet_from_valid q) || key_mem r (map tet_from_valid qs)).
    destruct (key_eqb r (tet_from_valid q)), (key_mem r (map tet_from_valid qs)); reflexivity.
  - rewrite IH3, Hd; reflexivity.
Qed.

Lemma extend_tets_keys (m : mesh) l r :
  In r (tet_ids (extend_tets Mwb m l)) ->
  In r (tet_ids m) \/ In r (map (fun qx => tet_from_valid (fst qx)) l).
Proof.
  unfold extend_tets in *; revert m; induction l as [| [q x] l IH]; intros m;
    cbn [fold_left map fst snd In]; [tauto |].
  intros Hr; apply IH in Hr as [Hr | Hr]; [| tauto].
  apply add_tet_keys in Hr as [Hr | Hr]; [| right; left; auto].
  left; eapply remove_colliding_keys; eauto.
Qed.


Lemma extend_tets_keep (m : mesh) l r y :
  lookup r (tets m) = Some y ->
  (forall qx, In qx l -> tet_from_valid (fst qx) = r -> snd qx = y) ->
  (forall qx, In qx l -> tet_from_valid (fst qx) <> r ->
              shares_face r (tet_from_valid (fst qx)) = false) ->
  lookup r (tets (extend_tets Mwb m l)) = Some y.
Proof.
  revert m; induction l as [| [q x] l IH]; intros m Hy Hs Hf; simpl; auto.
  apply IH; [| intros qx Hq; apply Hs; simpl; auto | intros qx Hq; apply Hf; simpl; auto].
  rewrite add_tet_lookup.
  destruct (key_eqb r (tet_from_valid q)) eqn:Hr.
  - apply key_eqb_spec in Hr; f_equal; apply (Hs (q, x)); simpl; auto.
  - rewrite remove_colliding_lookup, Hy.
    destruct (key_mem r (colliding m (tet_from_valid q))) eqn:Hc; auto.
    apply key_mem_In, colliding_In in Hc as (_ & Hne & Hsh).
    assert (Hf' : shares_face r (tet_from_valid q) = false) by (apply (Hf (q, x)); simpl; auto).
    congruence.
Qed.

Lemma extend_tets_present (m : mesh) l d :
  (forall qx, In qx l -> snd qx = d) ->
  (forall qx qy, In qx l -> In qy l -> tet_from_valid (fst qx) <> tet_from_valid (fst qy) ->
                 shares_face (tet_from_valid (fst qx)) (tet_from_valid (fst qy)) = false) ->
  forall qx, In qx l -> lookup (tet_from_valid (fst qx)) (tets (extend_tets Mwb m l)) = Some d.
Proof.
  revert m; induction l as [| [q x] l IH]; intros m Hd Hs qx Hq; [destruct Hq |].
  simpl extend_tets.
  destruct Hq as [<- | Hq].
  - apply extend_tets_keep.
    + rewrite add_tet_lookup, key_eqb_refl; f_equal; apply (Hd (q, x)); simpl; auto.
    + intros qy Hy _; apply Hd; simpl; auto.
    + intros qy Hy Hne; apply (Hs (q, x) qy); simpl; auto.
  - apply IH; auto; [intros qy Hy; apply Hd | intros qy qz Hy Hz; apply Hs]; simpl; auto.
Qed.



End InsertionFacts.

(** ** The first tetrahedron and its ghost tetrahedra *)

(** The key of the ghost tetrahedron [(u,w,v,ghost)] over a face
    [(u,v,w)]. *)
Definition ghost_key (ghost : VertexId) (f : TriId) : TetId :=
  let '(a, b, c) := f in tet_from_valid (a, c, b, ghost).

(** The four faces of a tetrahedron before canonicalisation. *)
Definition raw_faces (q : TetId) : list TriId :=
  let '(a, b, c, d) := q in [(a, b, c); (a, c, d); (a, d, b); (b, d, c)].

Lemma tet_tris_raw (q : TetId) : tet_tris q = map tri_from_valid (raw_faces q).
Proof. destruct q as [[[a b] c] d]; reflexivity. Qed.

Lemma raw_faces_distinct (q : TetId) f : distinct4 q -> In f (raw_faces q) -> distinct3 f.
Proof.
  destruct q as [[[a b] c] d]; simpl; intros Hd Hf.
  destruct Hf as [<- | [<- | [<- | [<- | []]]]]; simpl; lia.
Qed.

Lemma tri_eqb_canon (x y : TriId) :
  distinct3 x -> key_eqb (tri_from_valid x) (tri_from_valid y) = key_mem y (tri_rots x).
Proof.
  intros Hx; apply eq_true_iff_eq; rewrite key_eqb_spec, key_mem_In; split.
  - apply tri_from_valid_inj; auto.
  - intros Hy; symmetry; apply tri_from_valid_rot_eq; auto.
Qed.

Lemma existsb_ext_In {A} (f g : A -> bool) (l : list A) :
  (forall x, In x l -> f x = g x) -> existsb f l = existsb g l.
Proof.
  induction l as [| x l IH]; simpl; intros Hfg; auto.
  rewrite Hfg, IH; auto.
Qed.

Lemma existsb_map' {A B} (f : B -> bool) (h : A -> B) (l : list A) :
  existsb f (map h l) = existsb (fun x => f (h x)) l.
Proof. induction l as [| x l IH]; simpl; auto; rewrite IH; reflexivity. Qed.

Lemma shares_face_raw (q r : TetId) :
  distinct4 q ->
  shares_face q r =
  existsb (fun f => existsb (fun g => key_mem g (tri_rots f)) (raw_faces r)) (raw_faces q).
Proof.
  intros Hq; unfold shares_face; rewrite !tet_tris_raw, existsb_map'.
  apply existsb_ext_In; intros f Hf; unfold key_mem; rewrite existsb_map'.
  apply existsb_ext_In; intros g Hg; apply tri_eqb_canon.
  eapply raw_faces_distinct; eauto.
Qed.

Lemma shares_face_canon (q r : TetId) :
  distinct4 q -> distinct4 r ->
  shares_face (tet_from_valid q) (tet_from_valid r) = shares_face q r.
Proof. intros Hq Hr; apply shares_face_ext; intros f; apply tet_from_valid_tris; auto. Qed.

Lemma ghost_key_canon (x y z g : VertexId) :
  distinct4 (x, z, y, g) -> ghost_key g (tri_from_valid (x, y, z)) = tet_from_valid (x, z, y, g).
Proof.
  intros Hd; pose proof (tri_from_valid_rots (x, y, z)) as Hr; cbn [tri_rots In] in Hr.
  destruct Hr as [Hr | [Hr | [Hr | []]]]; rewrite <- Hr; unfold ghost_key;
    apply tet_from_valid_rot_eq; auto; cbn [tet_rots In];
    solve [repeat first [left; reflexivity | right]].
Qed.

(** Deciding the equalities among pairwise distinct vertex ids. *)
Ltac zeqb_decide :=
  repeat match goal with
  | |- context [Z.eqb ?x ?x] => rewrite (Z.eqb_refl x)
  | |- context [Z.eqb ?x ?y] => replace (Z.eqb x y) with false by (symmetry; apply Z.eqb_neq; lia)
  end.

Lemma first_ghosts_separate (a b c d g : VertexId) :
  distinct4 (a, b, c, d) -> g <> a -> g <> b -> g <> c -> g <> d ->
  (forall f, In f (tet_tris (a, b, c, d)) ->
             shares_face (tet_from_valid (a, b, c, d)) (ghost_key g f) = false) /\
  (forall f f', In f (tet_tris (a, b, c, d)) -> In f' (tet_tris (a, b, c, d)) ->
                ghost_key g f <> ghost_key g f' ->
                shares_face (ghost_key g f) (ghost_key g f') = false).
Proof.
  intros Hd Ha Hb Hc Hg; simpl in Hd; split.
  - intros f Hf; cbn [tet_tris In] in Hf.
    destruct Hf as [<- | [<- | [<- | [<- | []]]]];
      rewrite ghost_key_canon by (simpl; lia);
      rewrite shares_face_canon by (simpl; lia);
      rewrite shares_face_raw by (simpl; lia);
      simpl; zeqb_decide; reflexivity.
  - intros f f' Hf Hf'; cbn [tet_tris In] in Hf, Hf'.
    destruct Hf as [<- | [<- | [<- | [<- | []]]]], Hf' as [<- | [<- | [<- | [<- | []]]]];
      intros Hne; try (exfalso; apply Hne; reflexivity);
      rewrite !ghost_key_canon by (simpl; lia);
      rewrite shares_face_canon by (simpl; lia);
      rewrite shares_face_raw by (simpl; lia);
      simpl; zeqb_decide; reflexivity.
Qed.

(** ** The initial tetrahedron and triangle removal *)

Section InitFacts.
Context {V E F T : Type}.
Local Abbreviation mesh := (mesh V E F T).

Lemma init_fold_extend (g : VertexId) (fs : list TriId) (m : mesh) :
  fold_left (fun m t => let '(a, b, c) := t in
                        fst (add_tet Mwb m (a, c, b, g) (default_t m))) fs m =
  extend_tets Mwb m (map (fun t => let '(a, b, c) := t in ((a, c, b, g), default_t m)) fs).
Proof.
  unfold extend_tets; revert m; induction fs as [| [[a b] c] fs IH]; intros m;
    cbn [fold_left map fst snd]; auto.
  rewrite IH.
  destruct (add_tet_tets Mwb m (a, c, b, g) (default_t m)) as (_ & _ & ->); reflexivity.
Qed.

Lemma init_tets (m1 : mesh) (a b c d g : VertexId) :
  tets m1 = [] -> distinct4 (a, b, c, d) -> g <> a -> g <> b -> g <> c -> g <> d ->
  let first := tet_from_valid (a, b, c, d) in
  let m3 := fold_left (fun m t => let '(x, y, z) := t in
                                  fst (add_tet Mwb m (x, z, y, g) (default_t m)))
              (tet_tris first) (fst (add_tet Mwb m1 (a, b, c, d) (default_t m1))) in
  (forall r, In r (tet_ids m3) <->
             r = first \/ exists f, In f (tet_tris first) /\ r = ghost_key g f) /\
  (forall r, In r (tet_ids m3) -> lookup r (tets m3) = Some (default_t m1)).
Proof.
  intros Ht Hd Ha Hb Hc Hg first m3.
  destruct (first_ghosts_separate a b c d g Hd Ha Hb Hc Hg) as [Hs1 Hs2].
  assert (Htr : forall f, In f (tet_tris first) -> In f (tet_tris (a, b, c, d)))
    by (intros f; apply (tet_from_valid_tris (a, b, c, d)); auto).
  set (m2 := fst (add_tet Mwb m1 (a, b, c, d) (default_t m1))) in m3.
  assert (Hrc : remove_colliding Mwb m1 first = m1)
    by (unfold remove_colliding, colliding, tet_ids, keys; rewrite Ht; reflexivity).
  assert (Hm2 : tets m2 = [(first, default_t m1)]).
  { unfold m2; destruct (add_tet_tets Mwb m1 (a, b, c, d) (default_t m1)) as (-> & _ & _).
    fold first; rewrite Hrc, Ht; reflexivity. }
  assert (Hd2 : default_t m2 = default_t m1)
    by apply (add_tet_tets Mwb m1 (a, b, c, d) (default_t m1)).
  unfold m3; rewrite init_fold_extend, Hd2.
  set (l := map (fun t => let '(x, y, z) := t in ((x, z, y, g), default_t m1)) (tet_tris first)).
  assert (Hl : forall qx : TetId * T, In qx l -> snd qx = default_t m1 /\
               exists f, In f (tet_tris first) /\ tet_from_valid (fst qx) = ghost_key g f).
  { intros qx Hq; unfold l in Hq; apply in_map_iff in Hq as ([[x y] z] & <- & Hf).
    split; [reflexivity |]; exists (x, y, z); split; [exact Hf | reflexivity]. }
  assert (Hl' : forall f, In f (tet_tris first) ->
                exists qx : TetId * T, In qx l /\ tet_from_valid (fst qx) = ghost_key g f).
  { intros [[x y] z] Hf; exists ((x, z, y, g), default_t m1); split; [| reflexivity].
    unfold l; apply in_map_iff; exists (x, y, z); split; [reflexivity | exact Hf]. }
  assert (Hkeys : forall r, In r (tet_ids (extend_tets Mwb m2 l)) <->
                  r = first \/ exists f, In f (tet_tris first) /\ r = ghost_key g f).
  { intros r; split.
    - intros Hr; apply extend_tets_keys in Hr as [Hr | Hr].
      + unfold tet_ids, keys in Hr; rewrite Hm2 in Hr.
        destruct Hr as [<- | []]; left; reflexivity.
      + right; apply in_map_iff in Hr as (qx & <- & Hq).
        destruct (Hl qx Hq) as (_ & f & Hf & Hk); exists f; split; [exact Hf |].
        rewrite <- Hk; reflexivity.
    - intros [-> | (f & Hf & ->)].
      + eapply lookup_some_In; apply extend_tets_keep.
        * rewrite Hm2; cbn [lookup]; rewrite key_eqb_refl; reflexivity.
        * intros qx Hq _; apply Hl; auto.
        * intros qx Hq _; destruct (Hl qx Hq) as (_ & f & Hf & ->); apply Hs1; auto.
      + destruct (Hl' f Hf) as (qx & Hq & <-).
        eapply lookup_some_In; apply extend_tets_present; auto.
        * intros qy Hy; apply Hl; auto.
        * intros qy qz Hy Hz; destruct (Hl qy Hy) as (_ & f1 & Hf1 & ->);
            destruct (Hl qz Hz) as (_ & f2 & Hf2 & ->); apply Hs2; auto. }
  split; [exact Hkeys |].
  intros r Hr; apply Hkeys in Hr as [-> | (f & Hf & ->)].
  - apply extend_tets_keep.
    + rewrite Hm2; cbn [lookup]; rewrite key_eqb_refl; reflexivity.
    + intros qx Hq _; apply Hl; auto.
    + intros qx Hq _; destruct (Hl qx Hq) as (_ & f & Hf & ->); apply Hs1; auto.
  - destruct (Hl' f Hf) as (qx & Hq & <-); apply extend_tets_present; auto.
    + intros qy Hy; apply Hl; auto.
    + intros qy qz Hy Hz; destruct (Hl qy Hy) as (_ & f1 & Hf1 & ->);
        destruct (Hl qz Hz) as (_ & f2 & Hf2 & ->); apply Hs2; auto.
Qed.
End InitFacts.

Lemma NoDup_distinct4 (a b c d : VertexId) (r : list VertexId) :
  NoDup (a :: b :: c :: d :: r) -> distinct4 (a, b, c, d).
Proof.
  intros H; apply NoDup_cons_iff in H as [Ha H]; apply NoDup_cons_iff in H as [Hb H].
  apply NoDup_cons_iff in H as [Hc _]; simpl in *.
  repeat split; intros Heq; subst; intuition.
Qed.


Section TriRemovalFacts.
Context {V E F T : Type}.
Local Abbreviation mesh := (mesh V E F T).


End TriRemovalFacts.

(** * Claims *)

Section ReplaceIdempotence.
Context {V E F T : Type}.
(** Claim C7 (replace idempotence, modelled from the spec: [add_tet]'s
    store code is generated by macros outside the sources).  For a
    canonical key [q] absent from the mesh, [add_tet q x] returns [None];
    a second [add_tet q y] returns [Some x], and afterwards the store
    holds exactly one entry with key [q], whose payload is [y]. *)
Theorem add_tet_replace_idempotent (k : kind) (m : mesh V E F T) (q : TetId) (x y : T) :
tet_from_valid q = q -> lookup q (tets m) = None ->
let '(m1, r1) := add_tet k m q x in
let '(m2, r2) := add_tet k m1 q y in
r1 = None /\ r2 = Some x /\ count_key q (tets m2) = 1%nat /\ lookup q (tets m2) = Some y.
Proof.
intros Hc Hn.
destruct (add_tet k m q x) as [m1 r1] eqn:E1.
destruct (add_tet k m1 q y) as [m2 r2] eqn:E2.
destruct (add_tet_tets k m q x) as (T1 & R1 & _).
destruct (add_tet_tets k m1 q y) as (T2 & R2 & _).
rewrite E1, Hc in T1, R1; rewrite E2, Hc in T2, R2; simpl in *.
destruct (remove_colliding_self k m q) as [L1 _].
destruct (remove_colliding_self k m1 q) as [L2 C2].
rewrite L1, Hn in R1; rewrite L2, T1, lookup_insert, key_eqb_refl in R2.
split; [auto |]; split; [auto |].
rewrite T2, count_key_insert, lookup_insert, !key_eqb_refl, L2, C2, T1.
rewrite lookup_insert, count_key_insert, !key_eqb_refl, L1, Hn; auto.
Qed.
End ReplaceIdempotence.

Lemma add_tet_replace_idempotent_witness :
  tet_from_valid (0, 1, 3, 2) = (0, 1, 3, 2) /\
  lookup (0, 1, 3, 2) (tets (test_mesh [3; 6; 9; 2]%nat)) = None /\
  (let '(m1, r1) := add_tet Mwb (test_mesh [3; 6; 9; 2]%nat) (0, 1, 3, 2) 1%nat in
   let '(m2, r2) := add_tet Mwb m1 (0, 1, 3, 2) 2%nat in
   r1 = None /\ r2 = Some 1%nat /\ count_key (0, 1, 3, 2) (tets m2) = 1%nat /\
   lookup (0, 1, 3, 2) (tets m2) = Some 2%nat).
Proof.
  split; [vm_compute; reflexivity |]; split; [vm_compute; reflexivity |].
  apply (add_tet_replace_idempotent Mwb); vm_compute; reflexivity.
Defined.

Section AbsentRemoval.
Context {V E F T : Type}.
End AbsentRemoval.


Section Exclusive.
Context {V E F T : Type}.

(** Claim C2 (MWB exclusivity, modelled from the spec: [add_tet] and
    [extend_tets] are generated by macros outside the sources).  In an
    MWB mesh whose store has the MWB property, [add_tet q x] stores [x]
    under the canonical key of [q] and removes every stored tetrahedron
    sharing an oriented face with it; the MWB property is preserved, and
    after any [extend_tets] no two tetrahedra share an oriented face:
    every oriented triangle lies on at most one tetrahedron. *)
Theorem mwb_exclusivity (m : mesh V E F T) :
  mwb_exclusive m = true ->
  (forall q x,
     let q' := tet_from_valid q in
     let m' := fst (add_tet Mwb m q x) in
     lookup q' (tets m') = Some x /\
     (forall r, In r (tet_ids m) -> r <> q' -> shares_face r q' = true ->
                ~ In r (tet_ids m')) /\
     mwb_exclusive m' = true) /\
  (forall l,
     mwb_exclusive (extend_tets Mwb m l) = true /\
     forall f, (length (tri_tets (extend_tets Mwb m l) f) <= 1)%nat).
Proof.
  intros Hm; apply mwb_exclusive_spec in Hm; split.
  - intros q x q' m'.
    destruct (add_tet_mwb m q x Hm) as (Hl & Hk & He); fold q' m' in Hl, Hk, He.
    split; [exact Hl | split].
    + intros r Hr Hne Hs Hin; apply Hk in Hin as [[_ Hc] | Heq]; [| contradiction].
      apply Hc, colliding_In; auto.
    + apply mwb_exclusive_spec; exact He.
  - intros l; pose proof (extend_tets_mwb m l Hm) as He.
    split; [apply mwb_exclusive_spec; exact He |].
    intros f; apply excl_tri_tets; exact He.
Qed.
End Exclusive.

Lemma mwb_exclusivity_witness :
  mwb_exclusive (test_mesh [3; 6; 9; 2; 5; 8; 1; 4; 7]%nat) = true /\
  mwb_exclusive (extend_tets Mwb (test_mesh [3; 6; 9; 2; 5; 8; 1; 4; 7]%nat)
                   (((0, 1, 2, 3), 1%nat) :: test_tets_5)) = true.
Proof.
  assert (H : mwb_exclusive (test_mesh [3; 6; 9; 2; 5; 8; 1; 4; 7]%nat) = true)
    by (vm_compute; reflexivity).
  split; [exact H |].
  exact (proj1 (proj2 (mwb_exclusivity _ H) (((0, 1, 2, 3), 1%nat) :: test_tets_5))).
Defined.

Section GhostInSphere.
Context (orient_3d : VertexId -> VertexId -> VertexId -> VertexId -> bool)
        (in_sphere : VertexId -> VertexId -> VertexId -> VertexId -> VertexId -> bool).

(** Claim C5.  For a tetrahedron with four distinct vertices: when it
    contains the ghost, [in_sphere_with_ghosts] is [orient_3d] of its face
    opposite the ghost (a face of the tetrahedron holding its three other
    vertices and not the ghost) against [m]; otherwise it is [in_sphere]
    of its four vertices against [m]. *)
Theorem in_sphere_with_ghosts_cases (tet : TetId) (m ghost : VertexId) :
  distinct4 tet ->
  (tet_contains_vertex tet ghost = true ->
     let f := tet_opp_tri tet ghost in
     In f (tet_tris tet) /\ tri_contains_vertex f ghost = false /\
     (forall v, tet_contains_vertex tet v = true -> v <> ghost ->
                tri_contains_vertex f v = true) /\
     in_sphere_with_ghosts orient_3d in_sphere tet m ghost =
       (let '(a, b, c) := f in orient_3d a b c m)) /\
  (tet_contains_vertex tet ghost = false ->
     in_sphere_with_ghosts orient_3d in_sphere tet m ghost =
       (let '(a, b, c, d) := tet in in_sphere a b c d m)).
Proof.
  destruct tet as [[[a b] c] d]; intros Hd; split.
  - intros Hg f; unfold in_sphere_with_ghosts; rewrite Hg; fold f.
    split; [| split; [| split]].
    + unfold f, tet_opp_tri, tet_tris.
      destruct (a =? ghost), (b =? ghost), (c =? ghost); simpl; tauto.
    + unfold f, tet_opp_tri; simpl in Hd, Hg.
      destruct (Z.eqb_spec a ghost); [| destruct (Z.eqb_spec b ghost);
        [| destruct (Z.eqb_spec c ghost)]];
      rewrite tri_from_valid_contains; simpl; zcases; reflexivity.
    + intros v Hv Hvg; unfold f, tet_opp_tri; simpl in Hd, Hg, Hv.
      destruct (Z.eqb_spec a ghost); [| destruct (Z.eqb_spec b ghost);
        [| destruct (Z.eqb_spec c ghost)]];
      rewrite tri_from_valid_contains; simpl; zcases; try reflexivity.
    + destruct f as [[x y] z]; reflexivity.
  - intros Hg; unfold in_sphere_with_ghosts; rewrite Hg; reflexivity.
Qed.
End GhostInSphere.

Lemma in_sphere_with_ghosts_cases_witness :
  distinct4 (0, 1, 3, 2) /\
  in_sphere_with_ghosts test_orient_3d (fun _ _ _ _ _ => false) (0, 1, 3, 2) 4 0 =
    (let '(a, b, c) := tet_opp_tri (0, 1, 3, 2) 0 in test_orient_3d a b c 4).
Proof.
  assert (Hd : distinct4 (0, 1, 3, 2)) by (simpl; lia).
  split; [exact Hd |].
  assert (Hg : tet_contains_vertex (0, 1, 3, 2) 0 = true) by (vm_compute; reflexivity).
  exact (proj2 (proj2 (proj2 (proj1 (in_sphere_with_ghosts_cases test_orient_3d
           (fun _ _ _ _ _ => false) (0, 1, 3, 2) 4 0 Hd) Hg)))).
Defined.

Section SmallInput.
Context {V E F T : Type}
        (orient_3d : VertexId -> VertexId -> VertexId -> VertexId -> bool)
        (in_sphere : VertexId -> VertexId -> VertexId -> VertexId -> VertexId -> bool)
        (R : Type) (R_ltb : R -> R -> bool)
        (distance_squared : VertexId -> VertexId -> R) (ghost_position : V).

(** Claim C9.  On a mesh with fewer than four vertices [delaunay_tets]
    returns the input mesh unchanged; for a vertex-only input the result
    has no tetrahedra and the input's vertex ids. *)
Theorem delaunay_tets_small (m : mesh V E F T) :
  (num_vertices m < 4)%nat ->
  delaunay_tets orient_3d in_sphere R R_ltb distance_squared ghost_position m = Some m /\
  (tets m = [] ->
   forall m', delaunay_tets orient_3d in_sphere R R_ltb distance_squared ghost_position m
              = Some m' ->
   num_tets m' = 0%nat /\ vertex_ids m' = vertex_ids m).
Proof.
  intros Hn.
  assert (Hd : delaunay_tets orient_3d in_sphere R R_ltb distance_squared ghost_position m
               = Some m).
  { unfold delaunay_tets; apply Nat.ltb_lt in Hn; rewrite Hn; reflexivity. }
  split; [exact Hd |].
  intros Ht m' Hm'; rewrite Hd in Hm'; inversion Hm'; subst m'.
  unfold num_tets; rewrite Ht; auto.
Qed.
End SmallInput.

Lemma delaunay_tets_small_witness :
  (num_vertices (test_mesh [3; 6; 9]%nat) < 4)%nat /\
  delaunay_tets test_orient_3d (fun _ _ _ _ _ => false) Z Z.ltb (fun _ _ => 0) 0%nat
    (test_mesh [3; 6; 9]%nat) = Some (test_mesh [3; 6; 9]%nat).
Proof.
  assert (Hn : (num_vertices (test_mesh [3; 6; 9]%nat) < 4)%nat) by (vm_compute; lia).
  split; [exact Hn |].
  exact (proj1 (delaunay_tets_small test_orient_3d (fun _ _ _ _ _ => false) Z Z.ltb
                  (fun _ _ => 0) 0%nat _ Hn)).
Defined.

Section InsertionStep.
Context {V E F T : Type}.

End InsertionStep.


Section InitialTet.
Context {V E F T : Type}
        (orient_3d : VertexId -> VertexId -> VertexId -> VertexId -> bool)
        (ghost_position : V).

(** Claim C4, corrected (modelled from the spec in part: [add_tet]'s
    store code is generated by macros outside the sources).
    [delaunay_init] pops its four vertices off the
    end of [vertex_ids]: they are the LAST four ids, [v0] the very last.
    With [v2] and [v3] swapped when [orient_3d v0 v1 v2 v3] fails, the
    first tetrahedron is [(v0,v1,v2,v3)]; the ghost vertex is the fresh id
    [next_vertex_id m]; on a vertex-only mesh with fresh ids, the
    tetrahedra afterwards are exactly the first one and, for each of its
    faces [(u,v,w)], the ghost tetrahedron [(u,w,v,ghost)], all with the
    default payload; the remaining ids are left for the insertion loop. *)
Theorem delaunay_init_tets (m : mesh V E F T) :
  tets m = [] -> NoDup (vertex_ids m) ->
  (forall v, In v (vertex_ids m) -> v < next_vertex_id m) ->
  match rev (vertex_ids m) with
  | v0 :: v1 :: v2 :: v3 :: rest =>
      let first := tet_from_valid (if orient_3d v0 v1 v2 v3 then (v0, v1, v2, v3)
                                   else (v0, v1, v3, v2)) in
      exists m3,
        delaunay_init orient_3d ghost_position m = Some (m3, next_vertex_id m, rest) /\
        (forall r, In r (tet_ids m3) <->
                   r = first \/
                   exists f, In f (tet_tris first) /\ r = ghost_key (next_vertex_id m) f) /\
        (forall r, In r (tet_ids m3) -> lookup r (tets m3) = Some (default_t m))
  | _ => True
  end.
Proof.
  intros Ht Hnd Hlt.
  pose proof (NoDup_rev Hnd) as Hnd'.
  assert (Hlt' : forall v, In v (rev (vertex_ids m)) -> v < next_vertex_id m)
    by (intros v Hv; apply Hlt, in_rev; exact Hv).
  unfold delaunay_init.
  destruct (add_vertex m ghost_position) as [m1 g] eqn:Ha.
  unfold add_vertex in Ha; injection Ha as Hm1 Hg.
  assert (Ht1 : tets m1 = []) by (rewrite <- Hm1; exact Ht).
  assert (Hdef : default_t m1 = default_t m) by (rewrite <- Hm1; reflexivity).
  subst g; rewrite <- Hdef.
  remember (rev (vertex_ids m)) as vs eqn:Hvs.
  destruct vs as [| v0 [| v1 [| v2 [| v3 rest]]]]; auto.
  pose proof (NoDup_distinct4 _ _ _ _ _ Hnd') as Hd.
  assert (H0 : next_vertex_id m <> v0) by (specialize (Hlt' v0); simpl in Hlt'; lia).
  assert (H1 : next_vertex_id m <> v1) by (specialize (Hlt' v1); simpl in Hlt'; lia).
  assert (H2 : next_vertex_id m <> v2) by (specialize (Hlt' v2); simpl in Hlt'; lia).
  assert (H3 : next_vertex_id m <> v3) by (specialize (Hlt' v3); simpl in Hlt'; lia).
  destruct (orient_3d v0 v1 v2 v3); cbn [negb]; eexists; (split; [reflexivity |]).
  - exact (init_tets m1 v0 v1 v2 v3 _ Ht1 Hd H0 H1 H2 H3).
  - assert (Hd' : distinct4 (v0, v1, v3, v2)) by (simpl in *; lia).
    exact (init_tets m1 v0 v1 v3 v2 _ Ht1 Hd' H0 H1 H3 H2).
Qed.
End InitialTet.

Lemma delaunay_init_tets_witness :
  tets (test_mesh [0; 0; 0; 0; 0]%nat) = [] /\
  NoDup (vertex_ids (test_mesh [0; 0; 0; 0; 0]%nat)) /\
  (forall v, In v (vertex_ids (test_mesh [0; 0; 0; 0; 0]%nat)) ->
             v < next_vertex_id (test_mesh [0; 0; 0; 0; 0]%nat)) /\
  match rev (vertex_ids (test_mesh [0; 0; 0; 0; 0]%nat)) with
  | v0 :: v1 :: v2 :: v3 :: rest =>
      let first := tet_from_valid (if test_orient_3d v0 v1 v2 v3 then (v0, v1, v2, v3)
                                   else (v0, v1, v3, v2)) in
      exists m3,
        delaunay_init test_orient_3d 0%nat (test_mesh [0; 0; 0; 0; 0]%nat) =
          Some (m3, next_vertex_id (test_mesh [0; 0; 0; 0; 0]%nat), rest) /\
        (forall r, In r (tet_ids m3) <->
                   r = first \/
                   exists f, In f (tet_tris first) /\
                             r = ghost_key (next_vertex_id (test_mesh [0; 0; 0; 0; 0]%nat)) f) /\
        (forall r, In r (tet_ids m3) ->
                   lookup r (tets m3) = Some (default_t (test_mesh [0; 0; 0; 0; 0]%nat)))
  | _ => True
  end.
Proof.
  assert (Ht : tets (test_mesh [0; 0; 0; 0; 0]%nat) = []) by reflexivity.
  assert (Hn : NoDup (vertex_ids (test_mesh [0; 0; 0; 0; 0]%nat)))
    by (apply nodupb_spec; vm_compute; reflexivity).
  assert (Hl : forall v, In v (vertex_ids (test_mesh [0; 0; 0; 0; 0]%nat)) ->
                         v < next_vertex_id (test_mesh [0; 0; 0; 0; 0]%nat)).
  { intros v Hv; vm_compute in Hv; vm_compute.
    repeat (destruct Hv as [<- | Hv]; [reflexivity |]); destruct Hv. }
  split; [exact Ht | split; [exact Hn | split; [exact Hl |]]].
  exact (delaunay_init_tets test_orient_3d 0%nat _ Ht Hn Hl).
Defined.

(** Claim C4 as stated takes the FIRST four input vertices.  On the mesh
    with vertex ids [0..4] the initial tetrahedron is built from [4,3,2,1]
    and no tetrahedron on [0,1,2,3] is added, in either orientation. *)
Lemma delaunay_init_first_four_counterexample :
  vertex_ids (test_mesh [0; 0; 0; 0; 0]%nat) = [0; 1; 2; 3; 4] /\
  match delaunay_init test_orient_3d 0%nat (test_mesh [0; 0; 0; 0; 0]%nat) with
  | Some (m3, _, _) =>
      key_mem (tet_from_valid (0, 1, 2, 3)) (tet_ids m3) = false /\
      key_mem (tet_from_valid (0, 1, 3, 2)) (tet_ids m3) = false /\
      key_mem (tet_from_valid (4, 3, 2, 1)) (tet_ids m3)
        || key_mem (tet_from_valid (4, 3, 1, 2)) (tet_ids m3) = true
  | None => False
  end.
Proof. vm_compute; repeat split. Qed.

Section TriRemoval.
Context {V E F T : Type}.
Local Abbreviation mesh := (mesh V E F T).

End TriRemoval.



(** * Further properties of the code *)

Section WalkFacts.
Context {V E F T : Type} (R : Type) (R_ltb : R -> R -> bool)
        (distance_squared : VertexId -> VertexId -> R).
Local Abbreviation mesh := (mesh V E F T).

Lemma min_by_key_In {A} (key : A -> R) (l : list A) x :
  min_by_key R R_ltb key l = Some x -> In x l.
Proof.
  destruct l as [| y r]; simpl; intros H; [discriminate |]; injection H as <-.
  revert y; induction r as [| z r IH]; intros y; simpl; [auto |].
  destruct (IH (if R_ltb (key z) (key y) then z else y)) as [Hb | Hb];
    [destruct (R_ltb (key z) (key y)) | ]; auto.
Qed.

Lemma min_by_key_None {A} (key : A -> R) (l : list A) :
  min_by_key R R_ltb key l = None -> l = [].
Proof. destruct l; simpl; [auto | discriminate]. Qed.

Lemma ForallOrdPairs_NoDup {A} (Rl : A -> A -> Prop) (l : list A) :
  (forall x, ~ Rl x x) -> ForallOrdPairs Rl l -> NoDup l.
Proof.
  intros Hirr H; induction H as [| a l Ha Hl IH]; constructor; auto.
  intros Hin; rewrite Forall_forall in Ha; apply (Hirr a), Ha, Hin.
Qed.

Lemma vertex_targets_In (m : mesh) x u :
  closed m = true -> In u (vertex_targets m x) -> In u (vertex_ids m).
Proof.
  intros Hc Hu; unfold vertex_targets in Hu; apply in_map_iff in Hu as (e & <- & He).
  apply filter_In in He as [He _]; apply (proj1 (closed_spec m Hc) e He).
Qed.

Hypothesis R_ltb_trans :
  forall x y z, R_ltb x y = true -> R_ltb y z = true -> R_ltb x z = true.

Lemma walk_chain (m : mesh) (p : VertexId) fuel v :
  let w := walk R R_ltb distance_squared fuel m p v in
  (w = v \/ (exists x, In w (vertex_targets m x)) /\
            R_ltb (distance_squared w p) (distance_squared v p) = true) /\
  ((forall t, In t (vertex_targets m w) ->
              R_ltb (distance_squared t p) (distance_squared w p) = false) \/
   exists l, length l = fuel /\
     ForallOrdPairs (fun a b => R_ltb (distance_squared b p) (distance_squared a p) = true)
       (v :: l) /\
     forall u, In u l -> exists x, In u (vertex_targets m x)).
Proof.
  revert v; induction fuel as [| fuel IH]; intros v; cbn [walk].
  - split; [left; reflexivity |]; right; exists []; split; [reflexivity |].
    split; [repeat constructor | intros u []].
  - destruct (min_by_key R R_ltb (fun t => distance_squared t p) _) as [closer |] eqn:Hm.
    + apply min_by_key_In, filter_In in Hm as [Ht Hlt].
      destruct (IH closer) as [H1 H2].
      set (w := walk R R_ltb distance_squared fuel m p closer) in *.
      split.
      * right; destruct H1 as [Hw | (Hx & Hw)].
        -- rewrite Hw; split; [exists v; exact Ht | exact Hlt].
        -- split; [exact Hx | eapply R_ltb_trans; [exact Hw | exact Hlt]].
      * destruct H2 as [Hmin | (l & Hlen & Hord & Hl)]; [left; exact Hmin |].
        right; exists (closer :: l); split; [simpl; rewrite Hlen; reflexivity |].
        split; [| intros u [<- | Hu]; [exists v; exact Ht | apply Hl, Hu]].
        constructor; [| exact Hord].
        inversion Hord as [| a l0 Ha Hl0]; subst a l0.
        constructor; [exact Hlt |].
        eapply Forall_impl; [| exact Ha]; intros b Hb; cbv beta in Hb |- *.
        eapply R_ltb_trans; [exact Hb | exact Hlt].
    + apply min_by_key_None in Hm.
      split; [left; reflexivity |]; left; intros t Ht.
      destruct (R_ltb (distance_squared t p) (distance_squared v p)) eqn:Hlt; auto.
      assert (Hin : In t (filter (fun target => R_ltb (distance_squared target p)
                                                  (distance_squared v p))
                                 (vertex_targets m v)))
        by (apply filter_In; auto).
      rewrite Hm in Hin; destruct Hin.
Qed.

Hypothesis R_ltb_irrefl : forall x, R_ltb x x = false.

(** The greedy walk of [find_tet_to_delete], run with the fuel
    [num_vertices], ends inside the mesh at a vertex no farther from [p]
    than its start and with no strictly closer target: in a closed mesh
    the source's unbounded [while let] loop stops within [num_vertices]
    steps, so the fuel never cuts it short. *)
Theorem walk_local_min (m : mesh) (p v : VertexId) :
  closed m = true -> In v (vertex_ids m) ->
  let w := walk R R_ltb distance_squared (num_vertices m) m p v in
  In w (vertex_ids m) /\
  (w = v \/ R_ltb (distance_squared w p) (distance_squared v p) = true) /\
  forall t, In t (vertex_targets m w) ->
            R_ltb (distance_squared t p) (distance_squared w p) = false.
Proof.
  intros Hc Hv w.
  destruct (walk_chain m p (num_vertices m) v) as [H1 H2]; fold w in H1, H2.
  split; [| split].
  - destruct H1 as [-> | ((x & Hx) & _)]; [exact Hv | eapply vertex_targets_In; eauto].
  - destruct H1 as [-> | (_ & H)]; auto.
  - destruct H2 as [H | (l & Hlen & Hord & Hl)]; [exact H |]; exfalso.
    assert (Hnd : NoDup (v :: l)).
    { eapply ForallOrdPairs_NoDup; [| exact Hord].
      intros x Hx; rewrite R_ltb_irrefl in Hx; discriminate. }
    assert (Hincl : incl (v :: l) (vertex_ids m)).
    { intros u [<- | Hu]; [exact Hv |].
      destruct (Hl u Hu) as (x & Hx); eapply vertex_targets_In; eauto. }
    pose proof (NoDup_incl_length Hnd Hincl) as Hle.
    unfold vertex_ids, keys, num_vertices in *; rewrite length_map in Hle; simpl in Hle; lia.
Qed.
End WalkFacts.

Lemma walk_local_min_witness :
  let m := extend_tets Mwb (test_mesh [3; 6; 9; 2; 5; 8; 1; 4; 7]%nat) test_tets_5 in
  closed m = true /\ In 0 (vertex_ids m) /\
  In (walk Z Z.ltb (fun a b => (a - b) * (a - b)) (num_vertices m) m 7 0) (vertex_ids m).
Proof.
  intros m.
  assert (Hc : closed m = true) by (vm_compute; reflexivity).
  assert (Hv : In 0 (vertex_ids m)) by (vm_compute; left; reflexivity).
  split; [exact Hc | split; [exact Hv |]].
  refine (proj1 (walk_local_min Z Z.ltb (fun a b => (a - b) * (a - b)) _ _ m 7 0 Hc Hv)).
  - intros x y z Hxy Hyz; rewrite Z.ltb_lt in *; lia.
  - intros x; apply Z.ltb_irrefl.
Defined.

Section VertexFrame.
Context {V E F T : Type}.
Local Abbreviation mesh := (mesh V E F T).

(** The vertex store and the id allocator are the same. *)
Definition same_vertices (m m' : mesh) : Prop :=
  vertices m' = vertices m /\ next_vertex_id m' = next_vertex_id m.

Lemma sv_refl (m : mesh) : same_vertices m m.
Proof. split; reflexivity. Qed.

Lemma sv_trans (a b c : mesh) : same_vertices a b -> same_vertices b c -> same_vertices a c.
Proof. intros [H1 H2] [H3 H4]; split; congruence. Qed.

Lemma sv_set_edges (m : mesh) l : same_vertices m (set_edges m l).
Proof. split; reflexivity. Qed.
Lemma sv_set_tris (m : mesh) l : same_vertices m (set_tris m l).
Proof. split; reflexivity. Qed.
Lemma sv_set_tets (m : mesh) l : same_vertices m (set_tets m l).
Proof. split; reflexivity. Qed.

Lemma sv_fold {A} (f : mesh -> A -> mesh) (l : list A) (m : mesh) :
  (forall m a, same_vertices m (f m a)) -> same_vertices m (fold_left f l m).
Proof.
  intros Hf; revert m; induction l as [| a l IH]; intros m; [apply sv_refl |].
  eapply sv_trans; [apply Hf | apply IH].
Qed.

Lemma sv_remove_tet_key k (m : mesh) q : same_vertices m (fst (remove_tet_key k m q)).
Proof. unfold remove_tet_key, remove_tet_higher; destruct (store_remove _ _); apply sv_set_tets. Qed.

Lemma sv_remove_tets k (m : mesh) qs : same_vertices m (remove_tets k m qs).
Proof. apply sv_fold; intros; apply sv_remove_tet_key. Qed.

Lemma sv_add_tet k (m : mesh) q x : same_vertices m (fst (add_tet k m q x)).
Proof.
  unfold add_tet; destruct (store_insert _ _ _) as [l old]; cbn [fst].
  eapply sv_trans; [| apply sv_set_tets].
  eapply sv_trans; [| apply sv_fold].
  - destruct k; [apply sv_refl | apply sv_fold; intros; apply sv_remove_tet_key].
  - intros m' t; unfold ensure_tri; destruct (key_mem _ _); [apply sv_refl |].
    unfold add_tri; destruct (store_insert _ _ _) as [l' old']; cbn [fst].
    eapply sv_trans; [| apply sv_set_tris].
    apply sv_fold; intros m'' e; unfold ensure_edge; destruct (key_mem _ _);
      [apply sv_refl | apply sv_set_edges].
Qed.

Lemma sv_extend_tets k (m : mesh) l : same_vertices m (extend_tets k m l).
Proof. apply sv_fold; intros; apply sv_add_tet. Qed.

Lemma sv_remove_tri_go fuel k (m : mesh) t : same_vertices m (fst (remove_tri_go fuel k m t)).
Proof.
  revert m t; induction fuel as [| fuel IH]; intros m t; cbn [remove_tri_go];
    destruct (store_remove _ _) as [l old]; cbn [fst];
    (eapply sv_trans; [| apply sv_set_tris]); [apply sv_refl |].
  destruct k; [apply sv_remove_tets |].
  destruct (tri_vertex_opp m (tri_from_valid t)) as [opp |]; [| apply sv_refl].
  destruct (tri_from_valid t) as [[t0 t1] t2].
  eapply sv_trans; [| apply sv_fold; intros; apply IH].
  apply sv_remove_tet_key.
Qed.

Lemma sv_remove_tris k (m : mesh) ts : same_vertices m (remove_tris k m ts).
Proof. apply sv_fold; intros; apply sv_remove_tri_go. Qed.

Lemma sv_remove_edge_go fuel k (m : mesh) e : same_vertices m (fst (remove_edge_go fuel k m e)).
Proof.
  revert m e; induction fuel as [| fuel IH]; intros m e; cbn [remove_edge_go];
    destruct (store_remove _ _) as [l old]; cbn [fst];
    (eapply sv_trans; [| apply sv_set_edges]); [apply sv_refl |].
  destruct k; [apply sv_remove_tris |].
  destruct e as [e0 e1]; destruct (edge_vertex_opps m (e0, e1)) as [| opp rest];
    [apply sv_refl |].
  repeat match goal with
  | |- same_vertices ?a ?a => apply sv_refl
  | |- same_vertices _ (match ?x with [] => _ | _ :: _ => _ end) => destruct x
  | |- same_vertices _ (fst (remove_edge_go _ _ _ _)) => eapply sv_trans; [| apply IH]
  | |- same_vertices _ (fst (remove_tri _ _ _)) => eapply sv_trans; [| apply sv_remove_tri_go]
  | |- same_vertices _ (remove_tris _ _ _) => apply sv_remove_tris
  end.
Qed.

Lemma sv_remove_edges k (m : mesh) es : same_vertices m (remove_edges k m es).
Proof. apply sv_fold; intros; apply sv_remove_edge_go. Qed.
End VertexFrame.

Lemma filter_all_true {A} (f : A -> bool) (l : list A) :
  (forall x, In x l -> f x = true) -> filter f l = l.
Proof.
  induction l as [| x l IH]; simpl; intros Hf; auto.
  rewrite Hf by auto; f_equal; auto.
Qed.

Section DelaunayVertices.
Context {V E F T : Type}
        (orient_3d : VertexId -> VertexId -> VertexId -> VertexId -> bool)
        (in_sphere : VertexId -> VertexId -> VertexId -> VertexId -> VertexId -> bool)
        (R : Type) (R_ltb : R -> R -> bool)
        (distance_squared : VertexId -> VertexId -> R) (ghost_position : V).
Local Abbreviation mesh := (mesh V E F T).

Lemma sv_delaunay_loop (m : mesh) ghost vs m' :
  delaunay_loop orient_3d in_sphere R R_ltb distance_squared m ghost vs = Some m' ->
  same_vertices m m'.
Proof.
  revert m; induction vs as [| x vs IH]; intros m H; simpl in H.
  - injection H as <-; apply sv_refl.
  - destruct (tets_to_delete _ _ _ _ _ _ _ _) as [td |]; [| discriminate].
    eapply sv_trans; [| apply IH, H].
    unfold retetrahedralize; eapply sv_trans; [apply sv_remove_tets | apply sv_extend_tets].
Qed.

Lemma delaunay_init_vertices (m m3 : mesh) ghost rest :
  delaunay_init orient_3d ghost_position m = Some (m3, ghost, rest) ->
  ghost = next_vertex_id m /\ vertices m3 = vertices m ++ [(next_vertex_id m, ghost_position)].
Proof.
  unfold delaunay_init.
  destruct (add_vertex m ghost_position) as [m1 g] eqn:Ha.
  unfold add_vertex in Ha; injection Ha as Hm1 Hg.
  destruct (rev (vertex_ids m)) as [| v0 [| v1 [| v2 [| v3 vs]]]]; try discriminate.
  destruct (if negb (orient_3d v0 v1 v2 v3) then (v3, v2) else (v2, v3)) as [w2 w3].
  intros H; injection H as <- <- _; split; [symmetry; exact Hg |].
  match goal with |- vertices (fold_left ?f ?l ?m2) = _ =>
    destruct (sv_fold f l m2) as [-> _] end.
  { intros m' [[a b] c]; apply sv_add_tet. }
  destruct (sv_add_tet Mwb m1 (v0, v1, w2, w3) (default_t m1)) as [-> _].
  subst m1; reflexivity.
Qed.

(** [delaunay_tets] gives back the input's vertex store unchanged: the
    ghost vertex it allocates is removed at the end, and no step of the
    tetrahedralization touches the vertices (for input ids below the
    allocator's next id). *)
Theorem delaunay_tets_vertices (m m' : mesh) :
  (forall v, In v (vertex_ids m) -> v < next_vertex_id m) ->
  delaunay_tets orient_3d in_sphere R R_ltb distance_squared ghost_position m = Some m' ->
  vertices m' = vertices m.
Proof.
  intros Hlt; unfold delaunay_tets.
  destruct (num_vertices m <? 4)%nat; [intros H; injection H as <-; reflexivity |].
  destruct (delaunay_init orient_3d ghost_position m) as [[[m3 g] rest] |] eqn:Hi;
    [| discriminate].
  destruct (delaunay_loop _ _ _ _ _ m3 g rest) as [m4 |] eqn:Hl; [| discriminate].
  intros H; injection H as <-.
  destruct (delaunay_init_vertices m m3 g rest Hi) as [Hg H3].
  destruct (sv_delaunay_loop m3 g rest m4 Hl) as [H4 _].
  unfold remove_vertex.
  destruct (sv_remove_edges Mwb m4 (vertex_edges_out m4 g ++ vertex_edges_in m4 g)) as [H5 _].
  unfold store_remove; cbn [fst snd vertices set_vertices]; rewrite H5, H4, H3, filter_app; subst g; simpl.
  rewrite Z.eqb_refl, app_nil_r; apply filter_all_true.
  intros [v x] Hv; cbn [fst]; apply negb_true_iff, Z.eqb_neq.
  assert (Hin : In v (vertex_ids m)) by (apply in_map_iff; exists (v, x); auto).
  specialize (Hlt v Hin); lia.
Qed.
End DelaunayVertices.

Lemma delaunay_tets_vertices_witness :
  (forall v, In v (vertex_ids (test_mesh [0; 0; 0; 0; 0]%nat)) ->
             v < next_vertex_id (test_mesh [0; 0; 0; 0; 0]%nat)) /\
  match delaunay_tets test_orient_3d (fun _ _ _ _ _ => true) Z Z.ltb
          (fun a b => (a - b) * (a - b)) 0%nat (test_mesh [0; 0; 0; 0; 0]%nat) with
  | Some m' => vertices m' = vertices (test_mesh [0; 0; 0; 0; 0]%nat)
  | None => False
  end.
Proof.
  assert (Hl : forall v, In v (vertex_ids (test_mesh [0; 0; 0; 0; 0]%nat)) ->
                         v < next_vertex_id (test_mesh [0; 0; 0; 0; 0]%nat)).
  { intros v Hv; vm_compute in Hv; vm_compute.
    repeat (destruct Hv as [<- | Hv]; [reflexivity |]); destruct Hv. }
  split; [exact Hl |].
  destruct (delaunay_tets test_orient_3d (fun _ _ _ _ _ => true) Z Z.ltb
              (fun a b => (a - b) * (a - b)) 0%nat (test_mesh [0; 0; 0; 0; 0]%nat))
    as [m' |] eqn:Hd; [| vm_compute in Hd; discriminate].
  exact (delaunay_tets_vertices test_orient_3d (fun _ _ _ _ _ => true) Z Z.ltb
           (fun a b => (a - b) * (a - b)) 0%nat _ m' Hl Hd).
Defined.

Section EdgeFrame.
Context {V E F T : Type}.
Local Abbreviation mesh := (mesh V E F T).

Lemma fold_edges {A} (f : mesh -> A -> mesh) (l : list A) (m : mesh) :
  (forall m a, edges (f m a) = edges m) -> edges (fold_left f l m) = edges m.
Proof.
  intros Hf; revert m; induction l as [| a l IH]; intros m; [reflexivity |].
  cbn [fold_left]; rewrite IH; apply Hf.
Qed.

Lemma remove_tet_key_edges k (m : mesh) q : edges (fst (remove_tet_key k m q)) = edges m.
Proof. unfold remove_tet_key, remove_tet_higher; destruct (store_remove _ _); reflexivity. Qed.

Lemma remove_tri_go_edges fuel k (m : mesh) t : edges (fst (remove_tri_go fuel k m t)) = edges m.
Proof.
  revert m t; induction fuel as [| fuel IH]; intros m t; cbn [remove_tri_go];
    destruct (store_remove _ _) as [l old]; cbn [fst edges set_tris]; [reflexivity |].
  destruct k; [apply fold_edges; intros; apply remove_tet_key_edges |].
  destruct (tri_vertex_opp m (tri_from_valid t)) as [opp |]; [| reflexivity].
  destruct (tri_from_valid t) as [[t0 t1] t2].
  rewrite fold_edges by (intros; apply IH); apply remove_tet_key_edges.
Qed.

Lemma remove_tris_edges k (m : mesh) ts : edges (remove_tris k m ts) = edges m.
Proof. apply fold_edges; intros; apply remove_tri_go_edges. Qed.

Definition edges_sub (m m' : mesh) : Prop :=
  forall x, In x (edge_ids m') -> In x (edge_ids m).

Lemma edges_sub_refl (m : mesh) : edges_sub m m.
Proof. intros x; auto. Qed.

Lemma edges_sub_trans (a b c : mesh) : edges_sub a b -> edges_sub b c -> edges_sub a c.
Proof. intros H1 H2 x Hx; auto. Qed.

Lemma edges_sub_same (m m' : mesh) : edges m' = edges m -> edges_sub m m'.
Proof. intros H x; unfold edge_ids; rewrite H; auto. Qed.

Lemma remove_edge_go_edges fuel k (m : mesh) e e' :
  In e' (edge_ids (fst (remove_edge_go fuel k m e))) -> In e' (edge_ids m) /\ e' <> e.
Proof.
  revert m e e'; induction fuel as [| fuel IH]; intros m e e'; cbn [remove_edge_go].
  - destruct (store_remove e (edges m)) as [l old] eqn:Hs; cbn [fst]; unfold edge_ids at 1;
      cbn [edges set_edges]; replace l with (fst (store_remove e (edges m))) by (rewrite Hs; auto).
    rewrite keys_remove; auto.
  - match goal with |- context [store_remove e (edges ?m1)] => set (M1 := m1) end.
    assert (HM : edges_sub m M1).
    { unfold M1; destruct k; [apply edges_sub_same, remove_tris_edges |].
      destruct e as [e0 e1]; destruct (edge_vertex_opps m (e0, e1)) as [| opp rest];
        [apply edges_sub_refl |].
      repeat match goal with
      | |- edges_sub ?a ?a => apply edges_sub_refl
      | |- edges_sub _ (match ?y with [] => _ | _ :: _ => _ end) => destruct y
      | |- edges_sub _ (fst (remove_edge_go _ _ _ _)) =>
          eapply edges_sub_trans; [| intros ?x ?Hx; apply IH in Hx; apply Hx]
      | |- edges_sub _ (fst (remove_tri _ _ _)) =>
          eapply edges_sub_trans; [| apply edges_sub_same, remove_tri_go_edges]
      | |- edges_sub _ (remove_tris _ _ _) => apply edges_sub_same, remove_tris_edges
      end. }
    destruct (store_remove e (edges M1)) as [l old] eqn:Hs; cbn [fst]; unfold edge_ids at 1;
      cbn [edges set_edges]; replace l with (fst (store_remove e (edges M1))) by (rewrite Hs; auto).
    rewrite keys_remove; intros [Hx Hne]; auto.
Qed.

Lemma remove_edges_edges k (m : mesh) es e' :
  In e' (edge_ids (remove_edges k m es)) -> In e' (edge_ids m) /\ ~ In e' es.
Proof.
  unfold remove_edges; revert m; induction es as [| e es IH]; intros m; cbn [fold_left In];
    [tauto |].
  intros H; apply IH in H as [H Hn]; unfold remove_edge in H; apply remove_edge_go_edges in H as [H Hne]; split; [exact H | intros [Hx | Hx]; [congruence | tauto]].
Qed.
End EdgeFrame.

Section VertexRemoval.
Context {V E F T : Type}.
Local Abbreviation mesh := (mesh V E F T).



Lemma incident_edges_In (m : mesh) v e :
  In e (vertex_edges_out m v ++ vertex_edges_in m v) <->
  In e (edge_ids m) /\ (fst e = v \/ snd e = v).
Proof.
  unfold vertex_edges_out, vertex_edges_in; rewrite in_app_iff, !filter_In, !Z.eqb_eq; tauto.
Qed.

End VertexRemoval.

Section EdgeRemovalCombo.
Context {V E F T : Type}.
Local Abbreviation mesh := (mesh V E F T).

Lemma fold_tris {A} (f : mesh -> A -> mesh) (l : list A) (m : mesh) :
  (forall m a, tris (f m a) = tris m) -> tris (fold_left f l m) = tris m.
Proof.
  intros Hf; revert m; induction l as [| a l IH]; intros m; [reflexivity |].
  cbn [fold_left]; rewrite IH; apply Hf.
Qed.

Lemma remove_tets_tris k (m : mesh) qs : tris (remove_tets k m qs) = tris m.
Proof.
  apply fold_tris; intros m' q; unfold remove_tet, remove_tet_key, remove_tet_higher.
  destruct (store_remove _ _); reflexivity.
Qed.

(** One non-MWB triangle removal: the triangle's key goes from the
    triangle store, the stored tetrahedra having it as a face go, the
    edges and vertices stay. *)
Lemma remove_tri_combo_step fuel (m : mesh) t :
  (forall r, In r (tet_ids m) -> tet_from_valid r = r) ->
  let m' := fst (remove_tri_go (S fuel) Combo m t) in
  (forall x, In x (tri_ids m') <-> In x (tri_ids m) /\ x <> tri_from_valid t) /\
  (forall r, In r (tet_ids m') <-> In r (tet_ids m) /\ ~ In (tri_from_valid t) (tet_tris r)) /\
  edges m' = edges m /\ vertices m' = vertices m.
Proof.
  intros Hc m'; unfold m'; cbn [remove_tri_go].
  set (t' := tri_from_valid t).
  destruct (remove_tets_facts Combo m (tri_tets m t')) as [Hk _].
  pose proof (remove_tets_tris Combo m (tri_tets m t')) as Htr.
  destruct (sv_remove_tets Combo m (tri_tets m t')) as [Hv _].
  set (M1 := remove_tets Combo m (tri_tets m t')) in *.
  assert (He : edges M1 = edges m)
    by (unfold M1, remove_tets; apply fold_edges; intros; apply remove_tet_key_edges).
  destruct (store_remove t' (tris M1)) as [l old] eqn:Hs.
  assert (Hl : l = fst (store_remove t' (tris M1))) by (rewrite Hs; auto).
  cbn [fst]; split; [| split; [| split]].
  - intros x; unfold tri_ids at 1; cbn [tris set_tris]; rewrite Hl, keys_remove, Htr; reflexivity.
  - intros r; change (In r (tet_ids M1) <-> In r (tet_ids m) /\ ~ In t' (tet_tris r)).
    rewrite Hk, in_map_iff; split.
    + intros [Hr Hn]; split; [exact Hr |]; intros Hf; apply Hn; exists r.
      split; [apply Hc; exact Hr |].
      unfold tri_tets; apply filter_In; split; [exact Hr | apply key_mem_In; exact Hf].
    + intros [Hr Hn]; split; [exact Hr |]; intros [q [Hq Hin]].
      unfold tri_tets in Hin; apply filter_In in Hin as [Hin Hf]; apply key_mem_In in Hf.
      rewrite Hc in Hq by exact Hin; subst q; contradiction.
  - exact He.
  - exact Hv.
Qed.

Lemma remove_tris_combo (m : mesh) ts :
  (forall r, In r (tet_ids m) -> tet_from_valid r = r) ->
  let m' := remove_tris Combo m ts in
  (forall x, In x (tri_ids m') <-> In x (tri_ids m) /\ ~ In x (map tri_from_valid ts)) /\
  (forall r, In r (tet_ids m') <->
             In r (tet_ids m) /\ forall t, In t ts -> ~ In (tri_from_valid t) (tet_tris r)) /\
  edges m' = edges m /\ vertices m' = vertices m.
Proof.
  unfold remove_tris; revert m; induction ts as [| t ts IH]; intros m Hc;
    cbn [fold_left map In].
  - split; [tauto | split; [| split; reflexivity]]; intros r; split; [tauto |].
    intros [Hr _]; exact Hr.
  - destruct (remove_tri_combo_step (length (tets m)) m t Hc) as (H1 & H2 & H3 & H4).
    change (fst (remove_tri_go (S (length (tets m))) Combo m t))
      with (fst (remove_tri Combo m t)) in *.
    set (m1 := fst (remove_tri Combo m t)) in *.
    assert (Hc1 : forall r, In r (tet_ids m1) -> tet_from_valid r = r)
      by (intros r Hr; apply H2 in Hr as [Hr _]; auto).
    destruct (IH m1 Hc1) as (I1 & I2 & I3 & I4).
    split; [| split; [| split]].
    + intros x; rewrite I1, H1; split.
      * intros [[Hx Hne] Hn]; split; [exact Hx |]; intros [Heq | Hi]; [congruence | tauto].
      * intros [Hx Hn]; split; [split; [exact Hx |] |]; intros Hi; apply Hn; auto.
    + intros r; rewrite I2, H2; split.
      * intros [[Hr Hn] Hall]; split; [exact Hr |]; intros t0 [<- | Ht0]; auto.
      * intros [Hr Hall]; split; [split; [exact Hr |] |]; auto.
    + rewrite I3; exact H3.
    + rewrite I4; exact H4.
Qed.
End EdgeRemovalCombo.

Section EdgeRemovalComboThm.
Context {V E F T : Type}.
Local Abbreviation mesh := (mesh V E F T).

Lemma edge_tris_In (m : mesh) e t :
  In t (edge_tris m e) <-> In t (tri_ids m) /\ In e (tri_edges t).
Proof. unfold edge_tris; rewrite filter_In, key_mem_In; reflexivity. Qed.

Lemma remove_edge_combo_spec (m : mesh) (e : EdgeId) :
  (forall t, In t (tri_ids m) -> tri_from_valid t = t) ->
  (forall r, In r (tet_ids m) -> tet_from_valid r = r) ->
  let m' := fst (remove_edge Combo m e) in
  (forall x, In x (edge_ids m') <-> In x (edge_ids m) /\ x <> e) /\
  (forall t, In t (tri_ids m') <-> In t (tri_ids m) /\ ~ In e (tri_edges t)) /\
  (forall r, In r (tet_ids m') <->
             In r (tet_ids m) /\
             forall t, In t (tet_tris r) -> In t (tri_ids m) -> ~ In e (tri_edges t)) /\
  vertices m' = vertices m /\
  snd (remove_edge Combo m e) = lookup e (edges m).
Proof.
  intros Ht Hc m'; unfold m', remove_edge; cbn [remove_edge_go].
  destruct (remove_tris_combo m (edge_tris m e) Hc) as (H1 & H2 & H3 & H4).
  set (M1 := remove_tris Combo m (edge_tris m e)) in *.
  assert (Hcan : forall t, In t (edge_tris m e) -> tri_from_valid t = t)
    by (intros t Hin; apply edge_tris_In in Hin as [Hin _]; auto).
  destruct (store_remove e (edges M1)) as [l old] eqn:Hs.
  assert (Hl : l = fst (store_remove e (edges M1))) by (rewrite Hs; auto).
  assert (Ho : old = snd (store_remove e (edges M1))) by (rewrite Hs; auto).
  cbn [fst snd]; split; [| split; [| split; [| split]]].
  - intros x; unfold edge_ids at 1; cbn [edges set_edges]; rewrite Hl, keys_remove, H3.
    reflexivity.
  - intros t; change (In t (tri_ids M1) <-> In t (tri_ids m) /\ ~ In e (tri_edges t)).
    rewrite H1; split.
    + intros [Hin Hn]; split; [exact Hin |]; intros He; apply Hn, in_map_iff.
      exists t; split; [apply Ht; exact Hin | apply edge_tris_In; auto].
    + intros [Hin Hn]; split; [exact Hin |]; intros Hm; apply in_map_iff in Hm as [t0 [Ht0 Hi]].
      rewrite Hcan in Ht0 by exact Hi; subst t0; apply edge_tris_In in Hi; tauto.
  - intros r; change (In r (tet_ids M1) <-> In r (tet_ids m) /\
      forall t, In t (tet_tris r) -> In t (tri_ids m) -> ~ In e (tri_edges t)).
    rewrite H2; split.
    + intros [Hr Hall]; split; [exact Hr |]; intros t Hf Hin He.
      apply (Hall t); [apply edge_tris_In; auto | rewrite Ht by exact Hin; exact Hf].
    + intros [Hr Hall]; split; [exact Hr |]; intros t Hi Hf.
      rewrite Hcan in Hf by exact Hi; apply edge_tris_In in Hi as [Hin He].
      exact (Hall t Hf Hin He).
  - exact H4.
  - rewrite Ho; unfold store_remove; cbn [snd]; rewrite H3; reflexivity.
Qed.
End EdgeRemovalComboThm.


Section ComboCascade.
Context {V E F T : Type}.
Local Abbreviation mesh := (mesh V E F T).

(** Canonical stored keys, and the faces of stored tetrahedra stored. *)
Definition combo_inv (m : mesh) : Prop :=
  (forall t, In t (tri_ids m) -> tri_from_valid t = t) /\
  (forall r, In r (tet_ids m) -> tet_from_valid r = r) /\
  (forall r f, In r (tet_ids m) -> In f (tet_tris r) -> In f (tri_ids m)).

Lemma remove_edges_combo_facts (m : mesh) es :
  combo_inv m ->
  let m' := remove_edges Combo m es in
  combo_inv m' /\
  (forall t, In t (tri_ids m') <-> In t (tri_ids m) /\ forall e, In e es -> ~ In e (tri_edges t)) /\
  (forall r, In r (tet_ids m') <->
             In r (tet_ids m) /\ forall e f, In e es -> In f (tet_tris r) -> ~ In e (tri_edges f)).
Proof.
  unfold remove_edges; revert m; induction es as [| e es IH]; intros m Hi; cbn [fold_left].
  - split; [exact Hi |]; split; intros x; split; try tauto; intros [H _]; exact H.
  - destruct Hi as (Ht & Hc & Hf).
    destruct (remove_edge_combo_spec m e Ht Hc) as (_ & H2 & H3 & _ & _).
    set (m1 := fst (remove_edge Combo m e)) in *.
    assert (Hi1 : combo_inv m1).
    { split; [| split].
      - intros t Hin; apply H2 in Hin as [Hin _]; auto.
      - intros r Hin; apply H3 in Hin as [Hin _]; auto.
      - intros r f Hr Hfr; apply H3 in Hr as [Hr Hn]; apply H2.
        split; [apply (Hf r); auto | apply Hn; [exact Hfr | apply (Hf r); auto]]. }
    destruct (IH m1 Hi1) as (I1 & I2 & I3).
    split; [exact I1 | split].
    + intros t; rewrite I2, H2; split.
      * intros [[Hin Hn] Hall]; split; [exact Hin |]; intros e0 [<- | He0]; auto.
      * intros [Hin Hall]; split; [split; [exact Hin | apply Hall; left; reflexivity] |].
        intros e0 He0; apply Hall; right; exact He0.
    + intros r; rewrite I3, H3; split.
      * intros [[Hr Hn] Hall]; split; [exact Hr |]; intros e0 f [<- | He0] Hfr.
        -- apply Hn; [exact Hfr | apply (Hf r); auto].
        -- apply Hall; auto.
      * intros [Hr Hall]; split; [split; [exact Hr |] |].
        -- intros f Hfr _; apply (Hall e f); [left; reflexivity | exact Hfr].
        -- intros e0 f He0 Hfr; apply (Hall e0 f); [right; exact He0 | exact Hfr].
Qed.

Lemma tri_side_from (t : TriId) v :
  tri_contains_vertex t v = true -> exists e, In e (tri_edges t) /\ fst e = v.
Proof.
  destruct t as [[a b] c]; cbn [tri_contains_vertex tri_edges];
    rewrite !orb_true_iff, !Z.eqb_eq; intros [[-> | ->] | ->].
  - exists (v, b); cbn [In fst]; auto.
  - exists (v, c); cbn [In fst]; auto.
  - exists (v, a); cbn [In fst]; auto.
Qed.

Lemma tet_face_with (q : TetId) v :
  tet_contains_vertex q v = true -> exists f, In f (tet_tris q) /\ tri_contains_vertex f v = true.
Proof.
  intros H.
  assert (Hr : exists f, In f (raw_faces q) /\ tri_contains_vertex f v = true).
  { destruct q as [[[a b] c] d]; cbn [tet_contains_vertex] in H;
      rewrite !orb_true_iff in H; unfold raw_faces.
    destruct H as [[[H | H] | H] | H].
    - exists (a, b, c); split; [left; reflexivity | cbn; rewrite H; reflexivity].
    - exists (a, b, c); split; [left; reflexivity | cbn; rewrite H, orb_true_r; reflexivity].
    - exists (a, b, c); split; [left; reflexivity | cbn; rewrite H, orb_true_r; reflexivity].
    - exists (a, c, d); split; [right; left; reflexivity | cbn; rewrite H, orb_true_r; reflexivity]. }
  destruct Hr as [f [Hf Hv]]; exists (tri_from_valid f); split.
  - rewrite tet_tris_raw; apply in_map; exact Hf.
  - rewrite tri_from_valid_contains; exact Hv.
Qed.

(** Removing a vertex from a non-MWB mesh ([remove_vertex_higher]
    removes its outgoing and incoming edges, each [remove_edge_higher]
    removing the triangles around it with their tetrahedra): for a closed
    mesh with canonical stored keys, the vertex is gone and no edge, triangle or tetrahedron
    left references it. *)
Theorem remove_vertex_combo_cascade (m : mesh) (v : VertexId) :
  closed m = true ->
  (forall t, In t (tri_ids m) -> tri_from_valid t = t) ->
  (forall r, In r (tet_ids m) -> tet_from_valid r = r) ->
  let m' := fst (remove_vertex Combo m v) in
  ~ In v (vertex_ids m') /\
  (forall e, In e (edge_ids m') -> fst e <> v /\ snd e <> v) /\
  (forall t, In t (tri_ids m') -> tri_contains_vertex t v = false) /\
  (forall r, In r (tet_ids m') -> tet_contains_vertex r v = false).
Proof.
  intros Hcl Htc Hrc m'.
  destruct (closed_spec m Hcl) as (_ & Hte & Hqf).
  assert (Hi : combo_inv m) by (split; [exact Htc | split; [exact Hrc | exact Hqf]]).
  set (es := vertex_edges_out m v ++ vertex_edges_in m v).
  destruct (remove_edges_combo_facts m es Hi) as (_ & H2 & H3).
  assert (Hside : forall t, In t (tri_ids m) -> tri_contains_vertex t v = true ->
                            exists e, In e es /\ In e (tri_edges t)).
  { intros t Ht Hv; destruct (tri_side_from t v Hv) as [e [He Hfe]]; exists e; split; [| exact He].
    unfold es; apply incident_edges_In; split; [apply (Hte t e); auto | left; exact Hfe]. }
  assert (Hm : fst (remove_vertex Combo m v) =
               set_vertices (remove_edges Combo m es)
                 (fst (store_remove v (vertices (remove_edges Combo m es)))))
    by (unfold remove_vertex; fold es; destruct (store_remove _ _); reflexivity).
  unfold m'; rewrite Hm; split; [| split; [| split]].
  - unfold vertex_ids; cbn [vertices set_vertices]; rewrite keys_remove; tauto.
  - intros e He; change (In e (edge_ids (remove_edges Combo m es))) in He.
    apply remove_edges_edges in He as [He Hn]; unfold es in Hn; rewrite incident_edges_In in Hn.
    tauto.
  - intros t Ht; change (In t (tri_ids (remove_edges Combo m es))) in Ht.
    apply H2 in Ht as [Ht Hn]; apply not_true_iff_false; intros Hv.
    destruct (Hside t Ht Hv) as [e [He Het]]; exact (Hn e He Het).
  - intros r Hr; change (In r (tet_ids (remove_edges Combo m es))) in Hr.
    apply H3 in Hr as [Hr Hn]; apply not_true_iff_false; intros Hv.
    destruct (tet_face_with r v Hv) as [f [Hf Hfv]].
    destruct Hi as (_ & _ & Hfs).
    destruct (Hside f (Hfs r f Hr Hf) Hfv) as [e [He Het]]; exact (Hn e f He Hf Het).
Qed.
End ComboCascade.

Lemma remove_vertex_combo_cascade_witness :
  let m := extend_tets Combo (test_mesh [3; 6; 9; 2; 5; 8; 1; 4; 7]%nat) test_tets_5 in
  closed m = true /\
  (forall t, In t (tri_ids m) -> tri_from_valid t = t) /\
  (forall r, In r (tet_ids m) -> tet_from_valid r = r) /\
  ~ In 3 (vertex_ids (fst (remove_vertex Combo m 3))).
Proof.
  intros m.
  assert (Hcl : closed m = true) by (vm_compute; reflexivity).
  assert (Ht : forall t, In t (tri_ids m) -> tri_from_valid t = t).
  { assert (Hb : forallb (fun t => key_eqb (tri_from_valid t) t) (tri_ids m) = true)
      by (vm_compute; reflexivity).
    intros t Hin; rewrite forallb_forall in Hb; apply key_eqb_spec, Hb, Hin. }
  assert (Hc : forall r, In r (tet_ids m) -> tet_from_valid r = r).
  { assert (Hb : forallb (fun r => key_eqb (tet_from_valid r) r) (tet_ids m) = true)
      by (vm_compute; reflexivity).
    intros r Hin; rewrite forallb_forall in Hb; apply key_eqb_spec, Hb, Hin. }
  split; [exact Hcl | split; [exact Ht | split; [exact Hc |]]].
  exact (proj1 (remove_vertex_combo_cascade m 3 Hcl Ht Hc)).
Defined.

Section Shrinking.
Context {V E F T : Type}.
Local Abbreviation mesh := (mesh V E F T).

(** No key is added to the edge, triangle or tetrahedron stores, and the
    vertices stay. *)
Definition shrinks (m m' : mesh) : Prop :=
  (forall x, In x (edge_ids m') -> In x (edge_ids m)) /\
  (forall x, In x (tri_ids m') -> In x (tri_ids m)) /\
  (forall x, In x (tet_ids m') -> In x (tet_ids m)) /\
  same_vertices m m'.

Lemma shrinks_refl (m : mesh) : shrinks m m.
Proof. split; [| split; [| split]]; auto; apply sv_refl. Qed.

Lemma shrinks_trans (a b c : mesh) : shrinks a b -> shrinks b c -> shrinks a c.
Proof.
  intros (H1 & H2 & H3 & H4) (I1 & I2 & I3 & I4); split; [| split; [| split]]; auto.
  eapply sv_trans; eauto.
Qed.

Lemma shrinks_fold {A} (f : mesh -> A -> mesh) (l : list A) (m : mesh) :
  (forall m a, shrinks m (f m a)) -> shrinks m (fold_left f l m).
Proof.
  intros Hf; revert m; induction l as [| a l IH]; intros m; [apply shrinks_refl |].
  eapply shrinks_trans; [apply Hf | apply IH].
Qed.

Lemma shrinks_remove_tet_key k (m : mesh) q : shrinks m (fst (remove_tet_key k m q)).
Proof.
  split; [| split; [| split]].
  - unfold edge_ids; rewrite remove_tet_key_edges; auto.
  - unfold remove_tet_key, remove_tet_higher; destruct (store_remove _ _); auto.
  - intros x; unfold tet_ids; destruct (remove_tet_key_tets k m q) as [-> _].
    rewrite keys_remove; tauto.
  - apply sv_remove_tet_key.
Qed.

Lemma shrinks_remove_tri_go fuel k (m : mesh) t : shrinks m (fst (remove_tri_go fuel k m t)).
Proof.
  revert m t; induction fuel as [| fuel IH]; intros m t; cbn [remove_tri_go];
    match goal with |- context [store_remove ?t' (tris ?m1)] =>
      assert (Hs : shrinks m1 (fst (let '(l, old) := store_remove t' (tris m1) in
                                    (set_tris m1 l, old))))
        by (destruct (store_remove t' (tris m1)) as [l old] eqn:Hs;
            assert (Hl : l = fst (store_remove t' (tris m1))) by (rewrite Hs; auto);
            cbn [fst]; split; [| split; [| split]]; auto; [| apply sv_set_tris];
            intros x; unfold tri_ids; cbn [tris set_tris]; rewrite Hl, keys_remove; tauto);
      eapply shrinks_trans; [| exact Hs] end; [apply shrinks_refl |].
  destruct k; [apply shrinks_fold; intros; apply shrinks_remove_tet_key |].
  destruct (tri_vertex_opp m (tri_from_valid t)) as [opp |]; [| apply shrinks_refl].
  destruct (tri_from_valid t) as [[t0 t1] t2].
  eapply shrinks_trans; [| apply shrinks_fold; intros; apply IH].
  apply shrinks_remove_tet_key.
Qed.

Lemma shrinks_remove_tris k (m : mesh) ts : shrinks m (remove_tris k m ts).
Proof. apply shrinks_fold; intros; apply shrinks_remove_tri_go. Qed.

Lemma shrinks_remove_edge_go fuel k (m : mesh) e : shrinks m (fst (remove_edge_go fuel k m e)).
Proof.
  revert m e; induction fuel as [| fuel IH]; intros m e; cbn [remove_edge_go];
    match goal with |- context [store_remove ?e' (edges ?m1)] =>
      assert (Hs : shrinks m1 (fst (let '(l, old) := store_remove e' (edges m1) in
                                    (set_edges m1 l, old))))
        by (destruct (store_remove e' (edges m1)) as [l old] eqn:Hs;
            assert (Hl : l = fst (store_remove e' (edges m1))) by (rewrite Hs; auto);
            cbn [fst]; split; [| split; [| split]]; auto; [| apply sv_set_edges];
            intros x; unfold edge_ids; cbn [edges set_edges]; rewrite Hl, keys_remove; tauto);
      eapply shrinks_trans; [| exact Hs] end; [apply shrinks_refl |].
  destruct k; [apply shrinks_remove_tris |].
  destruct e as [e0 e1]; destruct (edge_vertex_opps m (e0, e1)) as [| opp rest];
    [apply shrinks_refl |].
  repeat match goal with
  | |- shrinks ?a ?a => apply shrinks_refl
  | |- shrinks _ (match ?x with [] => _ | _ :: _ => _ end) => destruct x
  | |- shrinks _ (fst (remove_edge_go _ _ _ _)) => eapply shrinks_trans; [| apply IH]
  | |- shrinks _ (fst (remove_tri _ _ _)) => eapply shrinks_trans; [| apply shrinks_remove_tri_go]
  | |- shrinks _ (remove_tris _ _ _) => apply shrinks_remove_tris
  end.
Qed.

(** Removing an edge, in either variant ([remove_edge_higher] of the MWB
    variant removes the triangles around the edge and, when they are left
    bare, the two other sides of the last one): the edge is gone, no
    edge, triangle or tetrahedron key is added, and the vertex store and
    the id allocator are unchanged. *)
Theorem remove_edge_shrinks (k : kind) (m : mesh) (e : EdgeId) :
  let m' := fst (remove_edge k m e) in
  ~ In e (edge_ids m') /\
  (forall x, In x (edge_ids m') -> In x (edge_ids m)) /\
  (forall x, In x (tri_ids m') -> In x (tri_ids m)) /\
  (forall x, In x (tet_ids m') -> In x (tet_ids m)) /\
  vertices m' = vertices m /\ next_vertex_id m' = next_vertex_id m.
Proof.
  intros m'; destruct (shrinks_remove_edge_go 2 k m e) as (H1 & H2 & H3 & H4 & H5).
  split; [| split; [| split; [| split; [| split]]]]; auto.
  intros Hin; apply remove_edge_go_edges in Hin as [_ Hne]; apply Hne; reflexivity.
Qed.
End Shrinking.

Section SeedSearch.
Context {V E F T : Type}
        (orient_3d : VertexId -> VertexId -> VertexId -> VertexId -> bool)
        (in_sphere : VertexId -> VertexId -> VertexId -> VertexId -> VertexId -> bool)
        (R : Type) (R_ltb : R -> R -> bool)
        (distance_squared : VertexId -> VertexId -> R).
Local Abbreviation mesh := (mesh V E F T).

Lemma bfs_go_facts fuel (nbrs : TetId -> list TetId) (filt : TetId -> bool) (P : TetId -> Prop)
    queue visited :
  (forall x, In x queue -> P x) -> (forall x y, P x -> In y (nbrs x) -> P y) ->
  let out := bfs_go fuel nbrs filt queue visited in
  NoDup out /\ forall x, In x out -> P x /\ filt x = true /\ ~ In x visited.
Proof.
  intros Hq Hn; revert queue visited Hq; induction fuel as [| fuel IH];
    intros queue visited Hq; cbn [bfs_go].
  - split; [constructor | intros x []].
  - destruct queue as [| y q]; [split; [constructor | intros x []] |].
    assert (Hq' : forall x, In x q -> P x) by (intros x Hx; apply Hq; right; exact Hx).
    destruct (key_mem y visited) eqn:Ev; [apply IH; exact Hq' |].
    destruct (filt y) eqn:Ef.
    + assert (Hq2 : forall x, In x (q ++ nbrs y) -> P x).
      { intros x Hx; apply in_app_or in Hx as [Hx | Hx]; [auto |].
        apply (Hn y); [apply Hq; left; reflexivity | exact Hx]. }
      destruct (IH (q ++ nbrs y) (y :: visited) Hq2) as [Hnd Hall].
      split.
      * constructor; [| exact Hnd]; intros Hy; apply Hall in Hy as (_ & _ & Hy).
        apply Hy; left; reflexivity.
      * intros x [<- | Hx].
        -- split; [apply Hq; left; reflexivity | split; [exact Ef |]].
           apply key_mem_notIn; exact Ev.
        -- apply Hall in Hx as (Hp & Hf & Hv); split; [exact Hp | split; [exact Hf |]].
           intros Hx; apply Hv; right; exact Hx.
    + destruct (IH q (y :: visited) Hq') as [Hnd Hall]; split; [exact Hnd |].
      intros x Hx; apply Hall in Hx as (Hp & Hf & Hv); split; [exact Hp | split; [exact Hf |]].
      intros Hx; apply Hv; right; exact Hx.
Qed.

Lemma adjacent_tets_stored (m : mesh) q r : In r (adjacent_tets m q) -> In r (tet_ids m).
Proof.
  unfold adjacent_tets; rewrite in_flat_map; intros [f [_ Hr]].
  unfold tri_tets in Hr; apply filter_In in Hr as [Hr _]; exact Hr.
Qed.

(** The tetrahedra [delaunay_tets] deletes around a new vertex
    ([tets_to_delete]: a breadth-first search from the seed that
    [find_tet_to_delete] picks): the seed comes first, and the list is a
    duplicate-free list of stored tetrahedra, each passing the
    ghost-aware in-sphere test against the new vertex. *)
Theorem tets_to_delete_sound (m : mesh) (p ghost : VertexId) (l : list TetId) :
  tets_to_delete orient_3d in_sphere R R_ltb distance_squared m p ghost = Some l ->
  (exists seed rest, find_tet_to_delete orient_3d in_sphere R R_ltb distance_squared m p ghost
                     = Some seed /\ l = seed :: rest) /\
  NoDup l /\
  forall q, In q l -> In q (tet_ids m) /\ in_sphere_with_ghosts orient_3d in_sphere q p ghost = true.
Proof.
  unfold tets_to_delete.
  destruct (find_tet_to_delete _ _ _ _ _ m p ghost) as [seed |] eqn:Hf; [| discriminate].
  intros H; injection H as <-.
  assert (Hs : In seed (tet_ids m) /\ in_sphere_with_ghosts orient_3d in_sphere seed p ghost = true).
  { unfold find_tet_to_delete in Hf; destruct (tets m) as [| [[[[v0 ?] ?] ?] ?] ?] eqn:Ht;
      [discriminate |].
    apply find_some in Hf as [Hin Hok]; split; [| exact Hok].
    unfold bfs in Hin.
    destruct (bfs_go_facts (length (vertex_tets m (walk R R_ltb distance_squared
                (num_vertices m) m p v0)) + 4 * S (num_tets m) * S (num_tets m))
                (adjacent_tets m) (fun _ => true) (fun r => In r (tet_ids m))
                (vertex_tets m (walk R R_ltb distance_squared (num_vertices m) m p v0)) [])
      as [_ Hall].
    - intros x Hx; unfold vertex_tets in Hx; apply filter_In in Hx as [Hx _]; exact Hx.
    - intros x y _ Hy; exact (adjacent_tets_stored m x y Hy).
    - apply Hall in Hin as [Hin _]; exact Hin. }
  destruct Hs as [Hs Hok].
  unfold bfs; cbn [length].
  destruct (bfs_go_facts (1 + 4 * S (num_tets m) * S (num_tets m)) (adjacent_tets m)
              (fun q => in_sphere_with_ghosts orient_3d in_sphere q p ghost)
              (fun r => In r (tet_ids m)) [seed] []) as [Hnd Hall].
  - intros x [<- | []]; exact Hs.
  - intros x y _ Hy; exact (adjacent_tets_stored m x y Hy).
  - split; [| split; [exact Hnd |]].
    + exists seed; cbn [Nat.add bfs_go key_mem app]; rewrite Hok.
      eexists; split; reflexivity.
    + intros q Hq; apply Hall in Hq as (H1 & H2 & _); auto.
Qed.
End SeedSearch.


Lemma tets_to_delete_sound_witness :
  match delaunay_init test_orient_3d 0%nat (test_mesh [0; 0; 0; 0; 0]%nat) with
  | Some (m3, ghost, v :: _) =>
      match tets_to_delete test_orient_3d (fun _ _ _ _ _ => true) Z Z.ltb
              (fun a b => (a - b) * (a - b)) m3 v ghost with
      | Some l => NoDup l
      | None => False
      end
  | _ => False
  end.
Proof.
  destruct (delaunay_init test_orient_3d 0%nat (test_mesh [0; 0; 0; 0; 0]%nat))
    as [[[m3 ghost] [| v rest]] |] eqn:Hi; [vm_compute in Hi; discriminate | | vm_compute in Hi; discriminate].
  destruct (tets_to_delete test_orient_3d (fun _ _ _ _ _ => true) Z Z.ltb
              (fun a b => (a - b) * (a - b)) m3 v ghost) as [l |] eqn:Ht.
  - exact (proj1 (proj2 (tets_to_delete_sound test_orient_3d (fun _ _ _ _ _ => true) Z Z.ltb
             (fun a b => (a - b) * (a - b)) m3 v ghost l Ht))).
  - vm_compute in Hi; injection Hi as <- <- <- _; vm_compute in Ht; discriminate.
Defined.
